(** * svelte-fancy-stores: the load / reload / write protocol of [src/index.ts]

    A shallow embedding of the store engine.  Store objects are records
    of own properties whose methods are closures over a heap of cells,
    exactly as the TypeScript closures capture [thisStore],
    [loadedValuesString] and [currentLoadPromise].

    Modelling conventions.
    - Execution is single threaded and every awaited promise is run to
      completion before its awaiter continues, so a promise is
      represented by its settlement ([Fulfilled] or [Rejected]).
      [Promise.all] is given its promises settled.  When several of
      them are rejected the library rejects with the one that was
      rejected first in time, which the settlements do not record; the
      model takes the first in array order, and the statements on
      [loadAll] and [reloadAll] say of a rejection only that its reason
      is the reason of a rejected element.
    - [svelte/store] is an external library: [writable] allocates a
      cell, [thisStore.set] overwrites its value and [get] returns the
      current snapshot of the cell a store's [subscribe] is bound to.
      In the library a [get] also subscribes for an instant, which on
      a store without subscribers runs the start notifier of lines
      156-163: it starts a derivation pass of that store in the
      background and subscribes the store to its parents, and
      [thisStore.set] notifies the subscribers, whose callbacks start
      further passes.  These background passes are outside the model:
      the stores are driven by explicit calls only, and a heap in a
      statement is the heap as the explicit calls leave it.  The
      statements on a call therefore give its result and what it does
      to the cell of the store it is called on.
    - Values are [undefined], [null], booleans, integers and arrays of
      these, which is what [JSON.stringify] is modelled on.
    - The caller-supplied mapping functions are opaque; they are
      modelled as functions of the number of earlier invocations and of
      their arguments, returning a value, a rejected promise or a
      synchronous throw.  Every invocation is recorded in a ghost log
      of the cell. *)

From Stdlib Require Import ZArith DecimalString.
From stdpp Require Import gmap strings list fin_maps.

Open Scope string_scope.
Set Warnings "-register-all".

(** ** JavaScript values *)

Inductive val : Type :=
| VUndefined
| VNull
| VBool (b : bool)
| VNum (n : Z)
| VArr (elems : list val).

(** Reasons carried by a throw or a rejection. *)
Inductive error : Type :=
| TypeError
| UserError (reason : val).

Definition val_is_undefined (v : val) : bool :=
  match v with VUndefined => true | _ => false end.

(** [JSON.stringify] on the values above.  Inside an array [undefined]
    is written as [null].  Numbers are integers, written in decimal as
    [JSON.stringify] writes the integers below 10^21. *)
Definition join_comma (parts : list string) : string :=
  match parts with
  | [] => EmptyString
  | p :: ps => fold_left (fun acc s => acc ++ "," ++ s) ps p
  end.

Fixpoint JSON_element (v : val) : string :=
  match v with
  | VUndefined => "null"
  | VNull => "null"
  | VBool true => "true"
  | VBool false => "false"
  | VNum n => NilZero.string_of_int (Z.to_int n)
  | VArr elems => "[" ++ join_comma (map JSON_element elems) ++ "]"
  end.

Definition JSON_stringify (storeValues : list val) : string :=
  JSON_element (VArr storeValues).

(** ** Completions and promises *)

Inductive completion (A : Type) : Type :=
| Normal (a : A)
| Throw (e : error).
Arguments Normal {A} a.
Arguments Throw {A} e.

Inductive Promise : Type :=
| Fulfilled (v : val)
| Rejected (e : error).

(** [p.then(() => v)] and [p.catch(() => v)] for a constant callback. *)
Definition then_const (p : Promise) (v : val) : Promise :=
  match p with
  | Fulfilled _ => Fulfilled v
  | Rejected e => Rejected e
  end.

Definition catch_const (p : Promise) (v : val) : Promise :=
  match p with
  | Fulfilled x => Fulfilled x
  | Rejected _ => Fulfilled v
  end.

(** [Promise.all] on settled promises: the array of the results in
    order, or a rejection; of several rejections the first in array
    order is taken. *)
Fixpoint all_values (ps : list Promise) : error + list val :=
  match ps with
  | [] => inr []
  | Fulfilled v :: rest =>
      match all_values rest with
      | inr vs => inr (v :: vs)
      | inl e => inl e
      end
  | Rejected e :: _ => inl e
  end.

Definition Promise_all (ps : list Promise) : Promise :=
  match all_values ps with
  | inr vs => Fulfilled (VArr vs)
  | inl e => Rejected e
  end.

(** ** The heap of cells

    One cell per [asyncWritable] (or plain [writable]) store, found at
    the location [writable] allocated for it: the value
    of the underlying svelte store, the two closure variables, and the
    ghost logs of the mapping functions' invocations (latest first). *)

Abbreviation loc := nat (only parsing).

Record cell : Type := Cell {
  value : val;
  loadedValuesString : option string;
  currentLoadPromise : option Promise;
  loadCalls : list val;
  writeCalls : list (val * val);
}.

Abbreviation heap := (gmap nat cell) (only parsing).

Definition newCell (initial : val) : cell :=
  Cell initial None None [] [].

Definition cellAt (h : heap) (l : loc) : cell :=
  default (newCell VUndefined) (h !! l).

Definition with_value (v : val) (c : cell) : cell :=
  Cell v (loadedValuesString c) (currentLoadPromise c) (loadCalls c) (writeCalls c).
Definition with_key (k : string) (c : cell) : cell :=
  Cell (value c) (Some k) (currentLoadPromise c) (loadCalls c) (writeCalls c).
Definition with_promise (p : Promise) (c : cell) : cell :=
  Cell (value c) (loadedValuesString c) (Some p) (loadCalls c) (writeCalls c).
Definition with_loadCall (arg : val) (c : cell) : cell :=
  Cell (value c) (loadedValuesString c) (currentLoadPromise c)
       (arg :: loadCalls c) (writeCalls c).
Definition with_writeCall (v pv : val) (c : cell) : cell :=
  Cell (value c) (loadedValuesString c) (currentLoadPromise c)
       (loadCalls c) ((v, pv) :: writeCalls c).

(** ** The state and exception monad of the embedding *)

Definition M (A : Type) : Type := heap -> completion A * heap.

Definition ret {A} (a : A) : M A := fun h => (Normal a, h).
Definition throw {A} (e : error) : M A := fun h => (Throw e, h).
Definition bind {A B} (m : M A) (k : A -> M B) : M B :=
  fun h =>
    match m h with
    | (Normal a, h') => k a h'
    | (Throw e, h') => (Throw e, h')
    end.

Notation "x <- m ;; k" := (bind m (fun x => k))
  (at level 62, m at next level, right associativity).
Notation "m ;;; k" := (bind m (fun _ => k))
  (at level 62, right associativity).

Definition try_catch {A} (body : M A) (handler : M A) : M A :=
  fun h =>
    match body h with
    | (Normal a, h') => (Normal a, h')
    | (Throw _, h') => handler h'
    end.

Definition read {A} (f : heap -> A) : M A := fun h => (Normal (f h), h).
Definition modify (l : loc) (f : cell -> cell) : M unit :=
  fun h => (Normal tt, <[l := f (cellAt h l)]> h).
Definition lift {A} (c : completion A) : M A := fun h => (c, h).

(** [await p] *)
Definition await (p : Promise) : M val :=
  match p with
  | Fulfilled v => ret v
  | Rejected e => throw e
  end.

(** What an [async] function body hands back: nothing, or the promise
    (possibly the undefined [currentLoadPromise]) it returns. *)
Definition settle (returned : option Promise) : Promise :=
  match returned with
  | Some p => p
  | None => Fulfilled VUndefined
  end.

Definition async (body : M (option Promise)) : M Promise :=
  fun h =>
    match body h with
    | (Normal r, h') => (Normal (settle r), h')
    | (Throw e, h') => (Normal (Rejected e), h')
    end.

(** [array.map(f)] with the effects of [f] in array order. *)
Fixpoint mapM {A B} (f : A -> M B) (xs : list A) : M (list B) :=
  match xs with
  | [] => ret []
  | x :: rest =>
      y <- f x ;;
      ys <- mapM f rest ;;
      ret (y :: ys)
  end.

(** ** Store objects *)

(** An [Updater] returns the new value or throws. *)
Definition Updater := val -> completion val.

(** What a call of a mapping function comes to: a value, returned as
    such or as a promise fulfilled with it, a rejected promise, or a
    synchronous throw. *)
Inductive mres : Type :=
| Returns (v : val)
| RejectsWith (e : error)
| Throws (e : error).

(** Property values: [subscribe] bound to the cell of a writable store
    or to the computation of a svelte derived store, the methods, and
    plain data. *)
Inductive prop : Type :=
| Subscribe (l : loc)
| Computed (f : heap -> completion val)
| Method (f : M Promise)
| SetMethod (f : val -> M Promise)
| UpdateMethod (f : Updater -> M Promise)
| Data (v : val).

Inductive JsObject : Type :=
  Obj { own : gmap string prop; proto : option JsObject }.

(** An argument of type [unknown]. *)
Inductive unknown : Type :=
| Undefined
| Null
| PrimBool (b : bool)
| PrimNum (n : Z)
| Object (o : JsObject).

(** Property access through the prototype chain. *)
Fixpoint getProp (o : JsObject) (k : string) : option prop :=
  match own o !! k with
  | Some p => Some p
  | None =>
      match proto o with
      | Some parent => getProp parent k
      | None => None
      end
  end.

(** [Object.prototype.hasOwnProperty.call(object, k)] *)
Definition hasOwn (o : JsObject) (k : string) : bool :=
  bool_decide (is_Some (own o !! k)).

Definition hasOwnProperty_call (object : unknown) (k : string) : completion bool :=
  match object with
  | Undefined | Null => Throw TypeError
  | PrimBool _ | PrimNum _ => Normal false
  | Object o => Normal (hasOwn o k)
  end.

Definition isLoadable (object : unknown) : completion bool :=
  hasOwnProperty_call object "load".

Definition isReloadable (object : unknown) : completion bool :=
  hasOwnProperty_call object "reload".

(** ** Dependency utilities and the graph drivers *)

(** The [Stores] type: one bare store or an array of stores. *)
Inductive Stores : Type :=
| Single (store : JsObject)
| Array (stores : list JsObject).

Definition isArray (stores : Stores) : bool :=
  match stores with Array _ => true | Single _ => false end.

Definition getStoresArray (stores : Stores) : list JsObject :=
  match stores with
  | Array ss => ss
  | Single s => [s]
  end.

(** [array.some(f)], stopping at the first hit. *)
Fixpoint some {A} (f : A -> completion bool) (xs : list A) : completion bool :=
  match xs with
  | [] => Normal false
  | x :: rest =>
      match f x with
      | Normal true => Normal true
      | Normal false => some f rest
      | Throw e => Throw e
      end
  end.

Definition anyLoadable (stores : Stores) : completion bool :=
  some isLoadable (map Object (getStoresArray stores)).

Definition anyReloadable (stores : Stores) : completion bool :=
  some isReloadable (map Object (getStoresArray stores)).

(** svelte's [get]: the snapshot of the cell behind [store.subscribe],
    or the value a derived store computes from its parents.  The
    subscription [get] makes for an instant, and the pass it starts on
    a store without subscribers, are outside the model. *)
Definition snapshot (store : JsObject) (h : heap) : completion val :=
  match getProp store "subscribe" with
  | Some (Subscribe l) => Normal (value (cellAt h l))
  | Some (Computed f) => f h
  | _ => Throw TypeError
  end.

Definition get (store : JsObject) : M val :=
  fun h => (snapshot store h, h).

(** [store.k()] *)
Definition call (store : JsObject) (k : string) : M Promise :=
  match getProp store k with
  | Some (Method f) => f
  | _ => throw TypeError
  end.

(** Lines 82-88: the callback [loadAll] maps over the stores. *)
Definition loadOne (store : JsObject) : M Promise :=
  if hasOwn store "load" then call store "load"
  else v <- get store ;; ret (Fulfilled v).

Definition loadAll (stores : Stores) : M Promise :=
  loadPromises <- mapM loadOne (getStoresArray stores) ;;
  ret (Promise_all loadPromises).

(** Lines 104-112: the callback [reloadAll] maps over the stores. *)
Definition reloadOne (store : JsObject) : M Promise :=
  if hasOwn store "reload" then call store "reload"
  else if hasOwn store "load" then call store "load"
  else v <- get store ;; ret (Fulfilled v).

Definition reloadAll (stores : Stores) : M Promise :=
  reloadPromises <- mapM reloadOne (getStoresArray stores) ;;
  ret (Promise_all reloadPromises).

(** ** asyncWritable *)

(** svelte's [writable(initial, start)]: a fresh cell.  The start
    notifier of lines 156-163 runs when the store gets its first
    subscriber; it belongs to the background passes, which are outside
    the model. *)
Definition writable (initial : val) : M loc :=
  fun h => let l := fresh (dom h) in (Normal l, <[l := newCell initial]> h).

(** Truthiness of an optional boolean argument. *)
Definition truthy (flag : option bool) : bool := default false flag.

(** The result of awaiting a mapping function's answer. *)
Definition awaitCall (r : mres) : M val :=
  match r with
  | Returns v => ret v
  | RejectsWith e => throw e
  | Throws e => throw e
  end.

Section asyncWritable_closures.
Variable stores : Stores.
Variable mappingLoadFunction : nat -> val -> mres.
Variable mappingWriteFunction : option (nat -> val -> val -> mres).
Variable reloadable : option bool.
Variable thisStore : loc.

(** [thisStore.set(v)]: the new value of the cell.  The notification
    of the subscribers is outside the model. *)
Definition thisStore_set (v : val) : M unit :=
  modify thisStore (with_value v).

Definition readPromise : M (option Promise) :=
  read (fun h => currentLoadPromise (cellAt h thisStore)).

(** [currentLoadPromise = currentLoadPromise.then/catch(...)]; calling
    a method of the undefined promise is a TypeError. *)
Definition chainPromise (f : Promise -> Promise) : M unit :=
  p <- readPromise ;;
  match p with
  | Some q => modify thisStore (with_promise (f q))
  | None => throw TypeError
  end.

(** The argument handed to the mapping-load function (line 193). *)
Definition loadArgument (storeValues : list val) : val :=
  if isArray stores then VArr storeValues
  else default VUndefined (storeValues !! 0%nat).

(** Lines 182-189: [true] when the pass stops at the memoization
    check. *)
Definition memoized (forceReload : bool) (storeValues : list val) : M bool :=
  if negb forceReload then
    let newValuesString := JSON_stringify storeValues in
    old <- read (fun h => loadedValuesString (cellAt h thisStore)) ;;
    if bool_decide (old = Some newValuesString) then ret true
    else modify thisStore (with_key newValuesString) ;;; ret false
  else ret false.

(** Lines 192-199. *)
Definition invokeMappingLoad (storeValues : list val) : M (option Promise) :=
  n <- read (fun h => length (loadCalls (cellAt h thisStore))) ;;
  let arg := loadArgument storeValues in
  modify thisStore (with_loadCall arg) ;;;
  match mappingLoadFunction n arg with
  | Throws e => throw e
  | RejectsWith e =>
      modify thisStore (with_promise (Rejected e)) ;;;
      readPromise
  | Returns finalValue =>
      modify thisStore (with_promise (Fulfilled finalValue)) ;;;
      thisStore_set finalValue ;;;
      readPromise
  end.

(** Lines 178-199: what a pass does once the parents have resolved. *)
Definition deriveAndSet (forceReload : bool) : M (option Promise) :=
  storeValues <- mapM get (getStoresArray stores) ;;
  skip <- memoized forceReload storeValues ;;
  if (skip : bool) then readPromise
  else invokeMappingLoad storeValues.

(** Lines 165-200.  [forceReload] is an optional argument with default
    [false]; the [catch] branch records the rejected promise of the
    parents and returns it. *)
Definition loadDependenciesThenSet
    (parentLoadFunction : Stores -> M Promise)
    (forceReload : option bool) : M Promise :=
  let forceReload := default false forceReload in
  async (
    loadParentStores <- parentLoadFunction stores ;;
    match loadParentStores with
    | Rejected _ =>
        modify thisStore (with_promise loadParentStores) ;;;
        readPromise
    | Fulfilled _ => deriveAndSet forceReload
    end).

(** Lines 203-209: the best-effort pass, the chaining of the load
    promise and the optimistic update. *)
Definition optimisticSet (v : val) : M unit :=
  try_catch
    (p <- loadDependenciesThenSet loadAll None ;;
     await p ;;;
     chainPromise (fun q => then_const q v))
    (chainPromise (fun q => catch_const q v)) ;;;
  thisStore_set v.

(** Lines 211-223. *)
Definition writeThrough (v : val) : M unit :=
  match mappingWriteFunction with
  | Some write =>
      p <- loadAll stores ;;
      parentValues <- await p ;;
      n <- read (fun h => length (writeCalls (cellAt h thisStore))) ;;
      modify thisStore (with_writeCall v parentValues) ;;;
      writeResponse <- awaitCall (write n v parentValues) ;;
      if val_is_undefined writeResponse then ret tt
      else
        thisStore_set writeResponse ;;;
        chainPromise (fun q => then_const q writeResponse)
  | None => ret tt
  end.

(** Lines 224-226. *)
Definition reloadAfterWrite : M unit :=
  if truthy reloadable then
    p <- loadDependenciesThenSet reloadAll reloadable ;;
    await p ;;; ret tt
  else ret tt.

(** Lines 202-227. *)
Definition setStoreValueThenWrite (v : val) : M Promise :=
  async (
    optimisticSet v ;;;
    writeThrough v ;;;
    reloadAfterWrite ;;;
    ret None).

(** Lines 229-232. *)
Definition updateStoreValueThenWrite (updater : Updater) : M Promise :=
  async (
    p <- loadDependenciesThenSet loadAll None ;;
    currentValue <- await p ;;
    newValue <- lift (updater currentValue) ;;
    q <- setStoreValueThenWrite newValue ;;
    ret (Some q)).

(** Line 234: [Boolean(reloadable || anyReloadable(stores))]. *)
Definition hasReloadFunction : completion bool :=
  if truthy reloadable then Normal true else anyReloadable stores.

(** Lines 236-244: the object literal with its conditional spread. *)
Definition storeObject (withReload : bool) : JsObject :=
  let base : gmap string prop :=
    <["load" := Method (loadDependenciesThenSet loadAll None)]>
    (<["update" := UpdateMethod updateStoreValueThenWrite]>
    (<["set" := SetMethod setStoreValueThenWrite]>
    (<["subscribe" := Subscribe thisStore]> ∅))) in
  Obj (if withReload
       then <["reload" := Method (loadDependenciesThenSet reloadAll reloadable)]> base
       else base)
      None.
End asyncWritable_closures.

Definition asyncWritable
    (stores : Stores)
    (mappingLoadFunction : nat -> val -> mres)
    (mappingWriteFunction : option (nat -> val -> val -> mres))
    (reloadable : option bool)
    (initial : val) : M JsObject :=
  thisStore <- writable initial ;;
  withReload <- lift (hasReloadFunction stores reloadable) ;;
  ret (storeObject stores mappingLoadFunction mappingWriteFunction
                   reloadable thisStore withReload).

(** [asyncDerived]: the read-only view.  [thisStore.k] of a missing
    property is [undefined]; the spread of [thisStore.reload && {...}]
    adds [reload] only when the writable store has one. *)
Definition propertyOf (o : JsObject) (k : string) : prop :=
  default (Data VUndefined) (getProp o k).

Definition asyncDerived
    (stores : Stores)
    (mappingLoadFunction : nat -> val -> mres)
    (reloadable : option bool)
    (initial : val) : M JsObject :=
  thisStore <- asyncWritable stores mappingLoadFunction None reloadable initial ;;
  let base : gmap string prop :=
    <["load" := propertyOf thisStore "load"]>
    (<["subscribe" := propertyOf thisStore "subscribe"]> ∅) in
  ret (Obj (match getProp thisStore "reload" with
            | Some reload => <["reload" := reload]> base
            | None => base
            end) None).

(** [asyncReadable]: no parents, and a load function without argument. *)
Definition asyncReadable
    (initial : val) (loadFunction : nat -> mres) (reloadable : bool) : M JsObject :=
  asyncDerived (Array []) (fun n _ => loadFunction n) (Some reloadable) initial.

(** ** derived *)

(** svelte's own [derived(stores, fn)]: the value is [fn] of the
    parents' snapshots, a bare value for a single store. *)
Definition vanillaDerived (stores : Stores) (mappingFunction : val -> completion val)
    : JsObject :=
  Obj (<["subscribe" :=
          Computed (fun h =>
            match (mapM get (getStoresArray stores) h).1 with
            | Normal storeValues =>
                mappingFunction
                  (if isArray stores then VArr storeValues
                   else default VUndefined (storeValues !! 0%nat))
            | Throw e => Throw e
            end)]> ∅) None.

(** Lines 62-71. *)
Definition loadDependencies (thisStore : JsObject)
    (loadFunction : Stores -> M Promise) (stores : Stores) : M Promise :=
  async (
    p <- loadFunction stores ;;
    await p ;;;
    v <- get thisStore ;;
    ret (Some (Fulfilled v))).

(** Lines 308-322. *)
Definition derived (stores : Stores) (mappingFunction : val -> completion val)
    : M JsObject :=
  let thisStore := vanillaDerived stores mappingFunction in
  withLoad <- lift (anyLoadable stores) ;;
  withReload <- lift (anyReloadable stores) ;;
  let base : gmap string prop :=
    <["subscribe" := propertyOf thisStore "subscribe"]> ∅ in
  let loadable : gmap string prop :=
    if (withLoad : bool)
    then <["load" := Method (loadDependencies thisStore loadAll stores)]> base
    else base in
  ret (Obj (if (withReload : bool)
            then <["reload" := Method (loadDependencies thisStore reloadAll stores)]>
                   loadable
            else loadable) None).

(** Running a program from the empty heap. *)
Definition run {A} (m : M A) : completion A * heap := m ∅.

(** Method calls on a store object. *)
Definition load_of (o : JsObject) : M Promise := call o "load".
Definition reload_of (o : JsObject) : M Promise := call o "reload".
Definition set_of (o : JsObject) (v : val) : M Promise :=
  match getProp o "set" with
  | Some (SetMethod f) => f v
  | _ => throw TypeError
  end.
Definition update_of (o : JsObject) (updater : Updater) : M Promise :=
  match getProp o "update" with
  | Some (UpdateMethod f) => f updater
  | _ => throw TypeError
  end.

(** The snapshots of a sequence of stores, in order. *)
Definition snapshots (ss : list JsObject) (h : heap) : completion (list val) :=
  (mapM get ss h).1.

(** A property found on the prototype chain only. *)
Definition inheritsOnly (o : JsObject) (k : string) : Prop :=
  own o !! k = None ∧ is_Some (getProp o k).


(** ** Failures, as the error taxonomy of the specification names them *)

Definition failure (r : mres) : option error :=
  match r with
  | Returns _ => None
  | RejectsWith e => Some e
  | Throws e => Some e
  end.

Section asyncWritable_failures.
Variable stores : Stores.
Variable mappingLoadFunction : nat → val → mres.
Variable mappingWriteFunction : option (nat → val → val → mres).
Variable thisStore : loc.

(** The failure arising in a derivation pass started in [h], if any:
    the parents' resolution throws or rejects (ancestor-load failure),
    a snapshot throws, or the mapping-load function is invoked and
    rejects or throws (mapping-function failure). *)
Definition passFailure (parentLoadFunction : Stores → M Promise)
    (forceReload : option bool) (h : heap) : option error :=
  match parentLoadFunction stores h with
  | (Throw e, _) => Some e
  | (Normal (Rejected e), _) => Some e
  | (Normal (Fulfilled _), h1) =>
      match snapshots (getStoresArray stores) h1 with
      | Throw e => Some e
      | Normal vs =>
          if negb (default false forceReload)
             && bool_decide (loadedValuesString (cellAt h1 thisStore)
                             = Some (JSON_stringify vs))
          then None
          else failure (mappingLoadFunction
                          (length (loadCalls (cellAt h1 thisStore)))
                          (loadArgument stores vs))
      end
  end.

(** The failure arising in the write step of [set(v)] started in [h1],
    if any: the parents' [loadAll] throws or rejects, or the
    mapping-write function rejects or throws. *)
Definition writeFailure (v : val) (h1 : heap) : option error :=
  match mappingWriteFunction with
  | None => None
  | Some write =>
      match loadAll stores h1 with
      | (Throw e, _) => Some e
      | (Normal (Rejected e), _) => Some e
      | (Normal (Fulfilled pv), h2) =>
          failure (write (length (writeCalls (cellAt h2 thisStore))) v pv)
      end
  end.
End asyncWritable_failures.

(** ** Sample stores and programs, for the closed instances below *)

Definition boom : error := UserError (VNum 500).

Definition plus (k : Z) (v : val) : val :=
  match v with VNum n => VNum (n + k) | _ => VUndefined end.

Definition times (k : Z) (v : val) : val :=
  match v with VNum n => VNum (n * k) | _ => VUndefined end.

(** A plain svelte store: a handle on the cell at [l]. *)
Definition plainStore (l : loc) : JsObject :=
  Obj (<["subscribe" := Subscribe l]> ∅) None.

(** An instance of a class whose [load] and [reload] are methods of
    the prototype. *)
Definition classInstance : JsObject :=
  Obj (<["subscribe" := Subscribe 0]> ∅)
      (Some (Obj (<["reload" := Method (ret (Fulfilled VNull))]>
                  (<["load" := Method (ret (Fulfilled VNull))]> ∅)) None)).

(** [asyncWritable([], async () => 0, async (v) => v * 2, flag)], its
    cell at location 0. *)
Definition doublingLoad : nat → val → mres := fun _ _ => Returns (VNum 0).
Definition doublingWrite : nat → val → val → mres :=
  fun _ v _ => Returns (times 2 v).
Definition doubling (flag : option bool) : JsObject :=
  storeObject (Array []) doublingLoad (Some doublingWrite) flag 0 (truthy flag).

(** [asyncWritable([], async () => 1, undefined, true)] at location 0:
    a reloadable source. *)
Definition sourceLoad : nat → val → mres := fun _ _ => Returns (VNum 1).
Definition source : JsObject :=
  storeObject (Array []) sourceLoad None (Some true) 0 true.

(** [asyncWritable([], () => Promise.reject(boom))] at location 0. *)
Definition failingLoad : nat → val → mres := fun _ _ => RejectsWith boom.
Definition failingSource : JsObject :=
  storeObject (Array []) failingLoad None None 0 false.

(** [asyncWritable(parent, (v) => v + 1)] at location 1, with neither
    a mapping-write function nor the [reloadable] flag. *)
Definition successorLoad : nat → val → mres := fun _ v => Returns (plus 1 v).
Definition successorOf (parent : JsObject) : JsObject :=
  storeObject (Single parent) successorLoad None None 1 (hasOwn parent "reload").

(** [(v) => { if (v === 2) throw boom; return v * 10 }]: a synchronous
    mapping-load function that throws on one input. *)
Definition tenfoldLoad : nat → val → mres :=
  fun _ v =>
    match v with
    | VNum 2 => Throws boom
    | _ => Returns (times 10 v)
    end.

(** [asyncWritable([], async () => 0, () => Promise.reject(boom))] at
    location 0. *)
Definition rejectingWrite : nat → val → val → mres :=
  fun _ _ _ => RejectsWith boom.
Definition unwritable : JsObject :=
  storeObject (Array []) doublingLoad (Some rejectingWrite) None 0 false.

(** [asyncWritable(stores, (values) => values.length)] at location 1:
    the mapping-load function answers the length of an array and
    [undefined] on a number. *)
Definition arityLoad : nat → val → mres :=
  fun _ v =>
    match v with
    | VArr elems => Returns (VNum (Z.of_nat (length elems)))
    | _ => Returns VUndefined
    end.
Definition arityOf (stores : Stores) : JsObject :=
  storeObject stores arityLoad None None 1 false.

Definition oneCell : heap := <[0%nat := newCell VUndefined]> ∅.

Definition twoCells (first : val) : heap :=
  <[1%nat := newCell VUndefined]> (<[0%nat := newCell first]> ∅).

(** [w.set(3)] then [get(w)], for the doubling store. *)
Definition setDoubling (flag : option bool) : M (Promise * val) :=
  w <- asyncWritable (Array []) doublingLoad (Some doublingWrite) flag VUndefined ;;
  p <- set_of w (VNum 3) ;;
  v <- get w ;;
  ret (p, v).

(** [c.load()] then [c.reload()] on the successor of the reloadable
    source. *)
Definition loadThenReload : M (bool * Promise * Promise) :=
  p <- asyncWritable (Array []) sourceLoad None (Some true) VUndefined ;;
  c <- asyncWritable (Single p) successorLoad None None VUndefined ;;
  r1 <- load_of c ;;
  r2 <- reload_of c ;;
  ret (hasOwn c "reload", r1, r2).

(** [c.load()], [c.set(5)] and [get(c)] on the successor of the
    failing source. *)
Definition setUnderFailingParent : M (Promise * Promise * val) :=
  p <- asyncWritable (Array []) failingLoad None None VUndefined ;;
  c <- asyncWritable (Single p) successorLoad None None VUndefined ;;
  r1 <- load_of c ;;
  r2 <- set_of c (VNum 5) ;;
  v <- get c ;;
  ret (r1, r2, v).

(** [d.load()] and [d.reload()] on [d = derived(r, (v) => v + 100)]
    over the reloadable [r = asyncReadable(7, loader, true)] whose
    loader answers the number of its earlier invocations. *)
Definition reloadDerived : M (Promise * Promise * val) :=
  r <- asyncReadable (VNum 7) (fun n => Returns (VNum (Z.of_nat n))) true ;;
  d <- derived (Single r) (fun v => Normal (plus 100 v)) ;;
  p1 <- load_of d ;;
  p2 <- reload_of d ;;
  v <- get d ;;
  ret (p1, p2, v).

(** [c.load()], the parent set to 2, [c.set(5)], [c.load()] and
    [get(c)], for [c = asyncWritable(p, tenfold)] over a plain store
    [p] holding 1. *)
Definition loadAfterSet : M (Promise * Promise * Promise * val) :=
  p <- writable (VNum 1) ;;
  c <- asyncWritable (Single (plainStore p)) tenfoldLoad None None VUndefined ;;
  r1 <- load_of c ;;
  modify p (with_value (VNum 2)) ;;;
  r2 <- set_of c (VNum 5) ;;
  r3 <- load_of c ;;
  v <- get c ;;
  ret (r1, r2, r3, v).

(** ** Further definitions for the properties of the whole file *)



(** The object [derived] returns for the successor function over the
    reloadable source. *)
Definition derivedSuccessor : JsObject :=
  match derived (Single source) (fun v => Normal (plus 1 v)) ∅ with
  | (Normal o, _) => o
  | (Throw _, _) => Obj ∅ None
  end.

(** [undefined] read as [null], at every depth: what [JSON.stringify]
    makes of the elements of an array. *)
Fixpoint nullify (v : val) : val :=
  match v with
  | VUndefined => VNull
  | VArr elems => VArr (map nullify elems)
  | _ => v
  end.

(** The heap of the successor of a plain store that held [undefined]
    when the successor loaded and holds [null] now. *)
Definition undefinedThenNull : heap :=
  <[0%nat := newCell VNull]>
    (load_of (successorOf (plainStore 0)) (twoCells VUndefined)).2.

(* ------------------------------------------------------------------ *)
(** * Basic facts *)

Lemma cellAt_insert (h : heap) (l : loc) (c : cell) :
  cellAt (<[l := c]> h) l = c.
Proof. unfold cellAt. by rewrite lookup_insert_eq. Qed.

Lemma cellAt_insert_ne (h : heap) (l l' : loc) (c : cell) :
  l ≠ l' → cellAt (<[l := c]> h) l' = cellAt h l'.
Proof. intros Hne. unfold cellAt. by rewrite lookup_insert_ne. Qed.

Lemma mapM_get (ss : list JsObject) (h : heap) :
  mapM get ss h = (snapshots ss h, h).
Proof.
  unfold snapshots. induction ss as [|s ss IH]; [done|].
  cbn [mapM]. unfold bind, get in *.
  destruct (snapshot s h) as [v|e]; [|done].
  rewrite IH. cbn. by destruct (mapM _ ss h).1.
Qed.

Lemma snapshots_cons (s : JsObject) (ss : list JsObject) (h : heap) :
  snapshots (s :: ss) h =
  match snapshot s h with
  | Normal v =>
      match snapshots ss h with
      | Normal vs => Normal (v :: vs)
      | Throw e => Throw e
      end
  | Throw e => Throw e
  end.
Proof.
  unfold snapshots at 1. cbn [mapM]. unfold bind, get.
  destruct (snapshot s h) as [v|e]; [|done].
  rewrite mapM_get. by destruct (snapshots ss h).
Qed.

Lemma snapshots_Forall2 (ss : list JsObject) (h : heap) (vs : list val) :
  snapshots ss h = Normal vs ↔ Forall2 (fun s v => snapshot s h = Normal v) ss vs.
Proof.
  revert vs. induction ss as [|s ss IH]; intros vs.
  - split.
    + intros [= <-]. constructor.
    + by inversion 1.
  - rewrite snapshots_cons. split.
    + destruct (snapshot s h) as [v|] eqn:Hs; [|done].
      destruct (snapshots ss h) as [ws|] eqn:Hss; [|done].
      intros [= <-]. constructor; [done|]. by apply IH.
    + inversion 1 as [|? v ? ws Hs Hss]; subst.
      rewrite Hs. apply IH in Hss. by rewrite Hss.
Qed.

Lemma some_hasOwn (ss : list JsObject) (k : string) :
  some (fun x => hasOwnProperty_call x k) (map Object ss)
  = Normal (existsb (fun s => hasOwn s k) ss).
Proof.
  induction ss as [|s ss IH]; [done|].
  cbn. destruct (hasOwn s k); [done|]. exact IH.
Qed.

Lemma existsb_hasOwn (ss : list JsObject) (k : string) :
  existsb (fun s => hasOwn s k) ss = true
  ↔ Exists (fun s => is_Some (own s !! k)) ss.
Proof.
  rewrite existsb_exists, Exists_exists. unfold hasOwn.
  split; intros (s & Hin & Hs); exists s; split; try done.
  - apply list_elem_of_In in Hin. done.
  - by apply bool_decide_eq_true in Hs.
  - by apply list_elem_of_In.
  - by apply bool_decide_eq_true.
Qed.

Lemma hasReloadFunction_eq (stores : Stores) (reloadable : option bool) :
  hasReloadFunction stores reloadable
  = Normal (truthy reloadable
            || existsb (fun s => hasOwn s "reload") (getStoresArray stores)).
Proof.
  unfold hasReloadFunction, anyReloadable, isReloadable.
  destruct (truthy reloadable); [done|]. by rewrite some_hasOwn.
Qed.

Lemma asyncWritable_eq stores mappingLoadFunction mappingWriteFunction
    reloadable initial (h : heap) :
  asyncWritable stores mappingLoadFunction mappingWriteFunction reloadable initial h
  = (Normal (storeObject stores mappingLoadFunction mappingWriteFunction reloadable
               (fresh (dom h))
               (truthy reloadable
                || existsb (fun s => hasOwn s "reload") (getStoresArray stores))),
     <[fresh (dom h) := newCell initial]> h).
Proof.
  unfold asyncWritable, bind, writable, lift.
  by rewrite hasReloadFunction_eq.
Qed.

Lemma truthy_Some_true (flag : option bool) :
  truthy flag = true ↔ flag = Some true.
Proof. destruct flag as [[]|]; cbn; split; congruence. Qed.

(** Looking up a named own property of an object literal. *)
Ltac own_lookup :=
  cbn [own storeObject];
  repeat (rewrite lookup_insert_ne by done);
  first [rewrite lookup_insert_eq | rewrite lookup_empty].

(** C10. [isLoadable] and [isReloadable] answer [true] exactly for an
    object that has [load] (respectively [reload]) among its own
    properties; a property that is only inherited through the prototype
    chain is reported as absent; on [null] and [undefined] the probes
    throw a TypeError instead of answering. *)
Theorem probes_test_own_property (x : unknown) :
  (isLoadable x = Normal true ↔ ∃ o, x = Object o ∧ is_Some (own o !! "load")) ∧
  (isReloadable x = Normal true ↔ ∃ o, x = Object o ∧ is_Some (own o !! "reload")) ∧
  (∀ o, x = Object o → inheritsOnly o "load" → isLoadable x = Normal false) ∧
  (∀ o, x = Object o → inheritsOnly o "reload" → isReloadable x = Normal false) ∧
  (x = Undefined ∨ x = Null →
   isLoadable x = Throw TypeError ∧ isReloadable x = Throw TypeError).
Proof.
  unfold isLoadable, isReloadable, inheritsOnly, hasOwn.
  repeat split.
  - destruct x; cbn; try done. intros [= Hb].
    apply bool_decide_eq_true in Hb. eauto.
  - intros (o & -> & Ho). cbn. f_equal. by apply bool_decide_eq_true.
  - destruct x; cbn; try done. intros [= Hb].
    apply bool_decide_eq_true in Hb. eauto.
  - intros (o & -> & Ho). cbn. f_equal. by apply bool_decide_eq_true.
  - intros o -> [Hown _]. cbn. f_equal. apply bool_decide_eq_false.
    rewrite Hown. by intros [? ?].
  - intros o -> [Hown _]. cbn. f_equal. apply bool_decide_eq_false.
    rewrite Hown. by intros [? ?].
  - by destruct H as [-> | ->].
  - by destruct H as [-> | ->].
Qed.

(** C7. The object returned by [asyncWritable] always has [subscribe],
    [set], [update] and [load] among its own properties, and has
    [reload] exactly when the [reloadable] flag is [true] or some store
    of the normalized dependency sequence has [reload] as an own
    property. *)
Theorem asyncWritable_capabilities stores mappingLoadFunction
    mappingWriteFunction reloadable initial (h : heap) :
  ∃ o h',
    asyncWritable stores mappingLoadFunction mappingWriteFunction reloadable initial h
    = (Normal o, h') ∧
    is_Some (own o !! "subscribe") ∧ is_Some (own o !! "set") ∧
    is_Some (own o !! "update") ∧ is_Some (own o !! "load") ∧
    (is_Some (own o !! "reload")
     ↔ reloadable = Some true
       ∨ Exists (fun s => is_Some (own s !! "reload")) (getStoresArray stores)).
Proof.
  rewrite asyncWritable_eq. eexists _, _. split; [reflexivity|].
  rewrite <- truthy_Some_true, <- existsb_hasOwn, <- orb_true_iff.
  destruct (truthy reloadable || existsb _ _);
    repeat split; try done; own_lookup; try done.
Qed.

(* ------------------------------------------------------------------ *)
(** * The derivation pass, case by case *)

Section derivation_pass.
Variable stores : Stores.
Variable mappingLoadFunction : nat → val → mres.
Variable thisStore : loc.

Local Abbreviation pass := (loadDependenciesThenSet stores mappingLoadFunction thisStore).
Local Abbreviation derive := (deriveAndSet stores mappingLoadFunction thisStore).
Local Abbreviation invoke := (invokeMappingLoad stores mappingLoadFunction thisStore).
Local Abbreviation cellOf h := (cellAt h thisStore).
Local Abbreviation put f h := (<[thisStore := f (cellAt h thisStore)]> h).
Local Abbreviation storeValues h := (snapshots (getStoresArray stores) h).
Local Abbreviation argOf vs := (loadArgument stores vs).

Lemma invoke_eq (vs : list val) (h : heap) :
  invoke vs h =
  match mappingLoadFunction (length (loadCalls (cellOf h))) (argOf vs) with
  | Throws e => (Throw e, put (with_loadCall (argOf vs)) h)
  | RejectsWith e =>
      (Normal (Some (Rejected e)),
       put (with_promise (Rejected e)) (put (with_loadCall (argOf vs)) h))
  | Returns v =>
      (Normal (Some (Fulfilled v)),
       put (with_value v)
           (put (with_promise (Fulfilled v)) (put (with_loadCall (argOf vs)) h)))
  end.
Proof.
  unfold invokeMappingLoad, bind, read, modify, thisStore_set, readPromise,
    throw, modify, read.
  destruct (mappingLoadFunction _ _); cbn; rewrite ?cellAt_insert; done.
Qed.

Lemma derive_throw (force : bool) (h : heap) (e : error) :
  storeValues h = Throw e → derive force h = (Throw e, h).
Proof.
  intros Hs. unfold deriveAndSet, bind. by rewrite mapM_get, Hs.
Qed.

Lemma derive_skip (h : heap) (vs : list val) :
  storeValues h = Normal vs →
  loadedValuesString (cellOf h) = Some (JSON_stringify vs) →
  derive false h = (Normal (currentLoadPromise (cellOf h)), h).
Proof.
  intros Hs Hk. unfold deriveAndSet, bind. rewrite mapM_get, Hs.
  unfold memoized, bind, read. cbn. rewrite Hk.
  by rewrite bool_decide_eq_true_2.
Qed.

Lemma derive_miss (h : heap) (vs : list val) :
  storeValues h = Normal vs →
  loadedValuesString (cellOf h) ≠ Some (JSON_stringify vs) →
  derive false h = invoke vs (put (with_key (JSON_stringify vs)) h).
Proof.
  intros Hs Hk. unfold deriveAndSet, bind. rewrite mapM_get, Hs.
  unfold memoized, bind, read, modify, ret. cbn.
  by rewrite bool_decide_eq_false_2.
Qed.

Lemma derive_forced (h : heap) (vs : list val) :
  storeValues h = Normal vs → derive true h = invoke vs h.
Proof.
  intros Hs. unfold deriveAndSet, bind. by rewrite mapM_get, Hs.
Qed.

Lemma pass_eq (parentLoadFunction : Stores → M Promise)
    (forceReload : option bool) (h : heap) :
  pass parentLoadFunction forceReload h =
  match parentLoadFunction stores h with
  | (Throw e, h1) => (Normal (Rejected e), h1)
  | (Normal (Rejected e), h1) =>
      (Normal (Rejected e), put (with_promise (Rejected e)) h1)
  | (Normal (Fulfilled _), h1) =>
      match derive (default false forceReload) h1 with
      | (Normal r, h') => (Normal (settle r), h')
      | (Throw e, h') => (Normal (Rejected e), h')
      end
  end.
Proof.
  unfold loadDependenciesThenSet, async, bind.
  destruct (parentLoadFunction stores h) as [[[v|e]|e] h1]; try done.
  unfold modify, readPromise, read. cbn. by rewrite cellAt_insert.
Qed.

(** The key on record after a pass whose parents resolved. *)
Lemma derive_false_key (h h' : heap) (vs : list val) r :
  storeValues h = Normal vs →
  derive false h = (r, h') →
  loadedValuesString (cellOf h') = Some (JSON_stringify vs).
Proof.
  intros Hs Hd.
  destruct (decide (loadedValuesString (cellOf h) = Some (JSON_stringify vs)))
    as [Hk|Hk].
  - rewrite (derive_skip _ _ Hs Hk) in Hd. by injection Hd as <- <-.
  - rewrite (derive_miss _ _ Hs Hk), invoke_eq in Hd.
    destruct (mappingLoadFunction _ _); injection Hd as <- <-;
      rewrite ?cellAt_insert; done.
Qed.

(** A pass adds at most one invocation to the log, with the argument
    built from the snapshots. *)
Lemma invoke_log (vs : list val) (h : heap) :
  loadCalls (cellOf (invoke vs h).2) = argOf vs :: loadCalls (cellOf h).
Proof.
  rewrite invoke_eq.
  destruct (mappingLoadFunction _ _); cbn [snd]; by rewrite ?cellAt_insert.
Qed.

Lemma derive_log (force : bool) (h : heap) (vs : list val) :
  storeValues h = Normal vs →
  loadCalls (cellOf (derive force h).2) = loadCalls (cellOf h)
  ∨ loadCalls (cellOf (derive force h).2) = argOf vs :: loadCalls (cellOf h).
Proof.
  intros Hs. destruct force.
  - right. by rewrite (derive_forced _ _ Hs), invoke_log.
  - destruct (decide (loadedValuesString (cellOf h) = Some (JSON_stringify vs)))
      as [Hk|Hk].
    + left. by rewrite (derive_skip _ _ Hs Hk).
    + right. rewrite (derive_miss _ _ Hs Hk), invoke_log.
      by rewrite cellAt_insert.
Qed.

End derivation_pass.

(* ------------------------------------------------------------------ *)
(** * The methods of an asyncWritable store *)

Section asyncWritable_store.
Variable stores : Stores.
Variable mappingLoadFunction : nat → val → mres.
Variable mappingWriteFunction : option (nat → val → val → mres).
Variable reloadable : option bool.
Variable thisStore : loc.
Variable withReload : bool.

Local Abbreviation o :=
  (storeObject stores mappingLoadFunction mappingWriteFunction reloadable
               thisStore withReload).
Local Abbreviation pass := (loadDependenciesThenSet stores mappingLoadFunction thisStore).
Local Abbreviation derive := (deriveAndSet stores mappingLoadFunction thisStore).
Local Abbreviation cellOf h := (cellAt h thisStore).
Local Abbreviation put f h := (<[thisStore := f (cellAt h thisStore)]> h).
Local Abbreviation storeValues h := (snapshots (getStoresArray stores) h).
Local Abbreviation argOf vs := (loadArgument stores vs).

Lemma load_of_storeObject : load_of o = pass loadAll None.
Proof.
  unfold load_of, call, getProp, storeObject.
  destruct withReload; by own_lookup.
Qed.

Lemma reload_of_storeObject :
  withReload = true → reload_of o = pass reloadAll reloadable.
Proof.
  intros ->. unfold reload_of, call, getProp, storeObject. by own_lookup.
Qed.

Lemma set_of_storeObject (v : val) :
  set_of o v
  = setStoreValueThenWrite stores mappingLoadFunction mappingWriteFunction
      reloadable thisStore v.
Proof.
  unfold set_of, getProp, storeObject.
  destruct withReload; by own_lookup.
Qed.

Lemma update_of_storeObject (updater : Updater) :
  update_of o updater
  = updateStoreValueThenWrite stores mappingLoadFunction mappingWriteFunction
      reloadable thisStore updater.
Proof.
  unfold update_of, getProp, storeObject.
  destruct withReload; by own_lookup.
Qed.

(** C3. When the resolution of the parents rejects during [load()]
    (through [loadAll]) or [reload()] (through [reloadAll]), the call
    rejects with the parents' reason, the rejected promise becomes the
    cell's current load promise, the mapping-load function is not
    invoked and the memoization key and the visible value stay as the
    parents' resolution left them: as they were before the call
    whenever the parents do not touch the cell. *)
Theorem ancestor_failure_leaves_value
    (resolve : Stores → M Promise) (method : JsObject → M Promise)
    (h h1 : heap) (e : error) :
  (resolve = loadAll ∧ method = load_of)
  ∨ (resolve = reloadAll ∧ method = reload_of ∧ withReload = true) →
  resolve stores h = (Normal (Rejected e), h1) →
  ∃ h',
    method o h = (Normal (Rejected e), h') ∧
    currentLoadPromise (cellOf h') = Some (Rejected e) ∧
    loadCalls (cellOf h') = loadCalls (cellOf h1) ∧
    loadedValuesString (cellOf h') = loadedValuesString (cellOf h1) ∧
    value (cellOf h') = value (cellOf h1) ∧
    (cellOf h1 = cellOf h → value (cellOf h') = value (cellOf h)).
Proof.
  intros Hcall Hres.
  assert (∃ force, method o = pass resolve force) as [force ->].
  { destruct Hcall as [[-> ->]|(-> & -> & Hw)].
    - eexists. apply load_of_storeObject.
    - eexists. by apply reload_of_storeObject. }
  rewrite pass_eq, Hres. eexists. split; [reflexivity|].
  rewrite cellAt_insert. cbn. repeat split; try done.
  by intros ->.
Qed.

(** C8. A derivation pass that reaches the invocation, the parents
    resolved and the pass forced or the serialized snapshots different
    from the key on record, applies the mapping-load function to the
    array of the parents' snapshots in dependency order when the
    [deps] argument was given as an array, and to the bare snapshot of
    the store, not to a one-element array, when it was a single bare
    store.  What the function answers on that argument settles the
    pass: a returned value is the result of the call and the visible
    value, a rejection or a throw rejects the call; the argument is
    the invocation on record. *)
Theorem mapping_load_argument
    (parentLoadFunction : Stores → M Promise) (forceReload : option bool)
    (h h1 : heap) (pv : val) (vs : list val) :
  parentLoadFunction stores h = (Normal (Fulfilled pv), h1) →
  storeValues h1 = Normal vs →
  default false forceReload = true
  ∨ loadedValuesString (cellOf h1) ≠ Some (JSON_stringify vs) →
  ∃ arg h',
    match stores with
    | Array ss =>
        arg = VArr vs ∧ Forall2 (fun s v => snapshot s h1 = Normal v) ss vs
    | Single s => snapshot s h1 = Normal arg
    end ∧
    pass parentLoadFunction forceReload h
    = (Normal match mappingLoadFunction (length (loadCalls (cellOf h1))) arg with
              | Returns x => Fulfilled x
              | RejectsWith e | Throws e => Rejected e
              end, h') ∧
    loadCalls (cellOf h') = arg :: loadCalls (cellOf h1) ∧
    (∀ x, mappingLoadFunction (length (loadCalls (cellOf h1))) arg = Returns x →
          value (cellOf h') = x).
Proof.
  intros Hp Hs Hreach. exists (argOf vs).
  assert (match stores with
          | Array ss =>
              argOf vs = VArr vs
              ∧ Forall2 (fun s v => snapshot s h1 = Normal v) ss vs
          | Single s => snapshot s h1 = Normal (argOf vs)
          end) as Harg.
  { unfold loadArgument. destruct stores as [s|ss]; cbn in *.
    - apply snapshots_Forall2 in Hs.
      inversion Hs as [|? v ? ws Hv Hnil]; subst. by inversion Hnil; subst.
    - split; [done|]. by apply snapshots_Forall2. }
  rewrite pass_eq, Hp.
  set (hk := if default false forceReload then h1
             else put (with_key (JSON_stringify vs)) h1).
  assert (derive (default false forceReload) h1
          = invokeMappingLoad stores mappingLoadFunction thisStore vs hk) as ->.
  { subst hk. destruct (default false forceReload).
    - by apply derive_forced.
    - apply derive_miss; [done|]. by destruct Hreach. }
  assert (loadCalls (cellOf hk) = loadCalls (cellOf h1)) as Hlog.
  { subst hk. destruct (default false forceReload); [done|].
    by rewrite cellAt_insert. }
  rewrite invoke_eq, Hlog.
  destruct (mappingLoadFunction _ _) as [x|e|e]; eexists;
    (split; [exact Harg|]); (split; [reflexivity|]);
    rewrite !cellAt_insert; cbn [loadCalls value with_value with_promise
                                 with_loadCall];
    by (split; [by rewrite Hlog|intros ? [= <-]]).
Qed.

(** C4. Two [load()] calls in succession, the parents resolving to the
    same value sequence in both and leaving the cell alone in the
    second: the second call finds the key of the first, returns the
    load promise on record and changes nothing, so that the two calls
    together invoke the mapping-load function at most once. *)
Theorem load_twice_invokes_at_most_once
    (h0 h1 h2 h3 : heap) (pv1 pv2 : val) (vs : list val)
    (r1 : completion Promise) :
  loadAll stores h0 = (Normal (Fulfilled pv1), h1) →
  storeValues h1 = Normal vs →
  load_of o h0 = (r1, h2) →
  loadAll stores h2 = (Normal (Fulfilled pv2), h3) →
  storeValues h3 = Normal vs →
  cellOf h3 = cellOf h2 →
  load_of o h2 = (Normal (settle (currentLoadPromise (cellOf h2))), h3) ∧
  loadedValuesString (cellOf h2) = Some (JSON_stringify vs) ∧
  (length (loadCalls (cellOf h3)) ≤ S (length (loadCalls (cellOf h1))))%nat.
Proof.
  intros Hp1 Hs1 Hload1 Hp2 Hs2 Hframe.
  rewrite load_of_storeObject in *.
  rewrite pass_eq, Hp1 in Hload1. cbn [default] in Hload1.
  pose proof (derive_log stores mappingLoadFunction thisStore false h1 vs Hs1)
    as Hlog.
  assert (loadedValuesString (cellOf h2) = Some (JSON_stringify vs)
          ∧ (derive false h1).2 = h2) as [Hkey Hh2].
  { destruct (derive false h1) as [r hd] eqn:Hd.
    pose proof (derive_false_key _ _ _ _ _ _ _ Hs1 Hd) as Hk.
    destruct r; injection Hload1 as <- <-; done. }
  rewrite Hh2 in Hlog.
  rewrite pass_eq, Hp2. cbn [default].
  rewrite (derive_skip stores mappingLoadFunction thisStore h3 vs Hs2)
    by (by rewrite Hframe).
  rewrite Hframe. repeat split; try done.
  destruct Hlog as [-> | ->]; cbn; lia.
Qed.

(** C1, as the code has it.  [reload()] resolves the parents with
    [reloadAll] and forces the derivation only when the cell's own
    [reloadable] flag is [true]: then the mapping-load function is
    invoked whatever the memoization key.  On a cell that owes its
    [reload] to a reloadable parent alone, [reload()] applies the
    memoization check of [load()]: with an unchanged key it returns
    the load promise on record and invokes nothing. *)
Theorem reload_forces_only_when_flagged
    (h h1 : heap) (pv : val) (vs : list val) :
  withReload = true →
  reloadAll stores h = (Normal (Fulfilled pv), h1) →
  storeValues h1 = Normal vs →
  (reloadable = Some true →
   loadCalls (cellOf (reload_of o h).2) = argOf vs :: loadCalls (cellOf h1))
  ∧ (reloadable ≠ Some true →
     loadedValuesString (cellOf h1) = Some (JSON_stringify vs) →
     reload_of o h = (Normal (settle (currentLoadPromise (cellOf h1))), h1)).
Proof.
  intros Hw Hp Hs. rewrite (reload_of_storeObject Hw), pass_eq, Hp.
  split.
  - intros ->. cbn [default].
    rewrite (derive_forced _ _ _ _ _ Hs).
    pose proof (invoke_log stores mappingLoadFunction thisStore vs h1) as Hlog.
    by destruct (invokeMappingLoad _ _ _ _ _) as [[?|?] ?].
  - intros Hflag Hk.
    assert (default false reloadable = false) as ->.
    { destruct reloadable as [[]|]; done. }
    by rewrite (derive_skip _ _ _ _ _ Hs Hk).
Qed.

End asyncWritable_store.

(* ------------------------------------------------------------------ *)
(** * The graph drivers *)


Lemma hasOwn_false (s : JsObject) (k : string) :
  hasOwn s k = false ↔ own s !! k = None.
Proof.
  unfold hasOwn. rewrite bool_decide_eq_false.
  by rewrite eq_None_not_Some.
Qed.



Lemma reloadOne_snapshot (s : JsObject) (h : heap) :
  own s !! "reload" = None → own s !! "load" = None →
  reloadOne s h = (match snapshot s h with
                   | Normal v => Normal (Fulfilled v)
                   | Throw e => Throw e
                   end, h).
Proof.
  intros Hr Hl. apply hasOwn_false in Hr. apply hasOwn_false in Hl.
  unfold reloadOne. rewrite Hr, Hl. unfold bind, get, ret.
  by destruct (snapshot s h).
Qed.



Lemma all_values_inr (ps : list Promise) (vs : list val) :
  all_values ps = inr vs ↔ ps = map Fulfilled vs.
Proof.
  revert vs. induction ps as [|[v|e] ps IH]; intros vs; cbn.
  - split; [intros [= <-]; done|]. by destruct vs.
  - destruct (all_values ps) as [e|ws] eqn:Hall.
    + split; [done|]. destruct vs as [|w ws]; [done|].
      intros [= -> Hps]. apply IH in Hps. done.
    + split.
      * intros [= <-]. cbn. f_equal. by apply IH.
      * destruct vs as [|w ws']; [done|]. intros [= -> Hps].
        apply IH in Hps. by injection Hps as ->.
  - split; [done|]. by destruct vs.
Qed.

Lemma loadOne_snapshot (s : JsObject) (h : heap) :
  own s !! "load" = None →
  loadOne s h = (match snapshot s h with
                 | Normal v => Normal (Fulfilled v)
                 | Throw e => Throw e
                 end, h).
Proof.
  intros Hl. apply hasOwn_false in Hl.
  unfold loadOne. rewrite Hl. unfold bind, get, ret.
  by destruct (snapshot s h).
Qed.

Lemma all_values_Fulfilled (vs : list val) :
  all_values (map Fulfilled vs) = inr vs.
Proof. by apply all_values_inr. Qed.

(** On stores that have neither [load] nor [reload], [loadAll] and
    [reloadAll] never reject: both fulfil with the snapshots the
    stores have at the call, in the order of the stores. *)
Lemma drivers_on_plain_stores (stores : Stores) (h : heap) (vs : list val) :
  Forall (fun s => own s !! "load" = None ∧ own s !! "reload" = None)
         (getStoresArray stores) →
  snapshots (getStoresArray stores) h = Normal vs →
  (loadAll stores h).1 = Normal (Fulfilled (VArr vs))
  ∧ (reloadAll stores h).1 = Normal (Fulfilled (VArr vs)).
Proof.
  intros Hplain Hs.
  assert (mapM loadOne (getStoresArray stores) h = (Normal (map Fulfilled vs), h)
          ∧ mapM reloadOne (getStoresArray stores) h
            = (Normal (map Fulfilled vs), h)) as [Hload Hreload].
  { revert vs Hs.
    induction Hplain as [|s ss [Hl Hr] _ IH]; intros vs Hs.
    - by injection Hs as <-.
    - rewrite snapshots_cons in Hs.
      destruct (snapshot s h) as [v|] eqn:Hv; [|done].
      destruct (snapshots ss h) as [ws|] eqn:Hws; [|done].
      injection Hs as <-. destruct (IH ws eq_refl) as [IHl IHr].
      cbn [mapM]. unfold bind at 1 3.
      rewrite (loadOne_snapshot _ _ Hl), (reloadOne_snapshot _ _ Hr Hl), Hv.
      unfold bind. by rewrite IHl, IHr. }
  unfold loadAll, reloadAll, bind, ret, Promise_all.
  by rewrite Hload, Hreload, all_values_Fulfilled.
Qed.

(** The object returned by [derived] has [subscribe], has [load]
    exactly when some store of the normalized dependency sequence has
    [load] as an own property, and [reload] exactly when some store
    has [reload]. *)
Lemma derived_capabilities (stores : Stores)
    (mappingFunction : val → completion val) (h : heap) :
  ∃ o,
    derived stores mappingFunction h = (Normal o, h) ∧
    is_Some (own o !! "subscribe") ∧
    (is_Some (own o !! "load")
     ↔ Exists (fun s => is_Some (own s !! "load")) (getStoresArray stores)) ∧
    (is_Some (own o !! "reload")
     ↔ Exists (fun s => is_Some (own s !! "reload")) (getStoresArray stores)).
Proof.
  eexists. split.
  { unfold derived, bind, lift, anyLoadable, anyReloadable, isLoadable,
      isReloadable, ret.
    rewrite !some_hasOwn. reflexivity. }
  rewrite <- !existsb_hasOwn.
  destruct (existsb _ _), (existsb _ _); cbn [own];
    repeat split; try done;
    repeat (rewrite lookup_insert_ne by done);
    rewrite ?lookup_insert_eq, ?lookup_empty; try done.
Qed.




(* ------------------------------------------------------------------ *)
(** * The write path *)

Section asyncWritable_write.
Variable stores : Stores.
Variable mappingLoadFunction : nat → val → mres.
Variable mappingWriteFunction : option (nat → val → val → mres).
Variable reloadable : option bool.
Variable thisStore : loc.
Variable withReload : bool.

Local Abbreviation o :=
  (storeObject stores mappingLoadFunction mappingWriteFunction reloadable
               thisStore withReload).
Local Abbreviation pass := (loadDependenciesThenSet stores mappingLoadFunction thisStore).
Local Abbreviation derive := (deriveAndSet stores mappingLoadFunction thisStore).
Local Abbreviation cellOf h := (cellAt h thisStore).
Local Abbreviation put f h := (<[thisStore := f (cellAt h thisStore)]> h).
Local Abbreviation storeValues h := (snapshots (getStoresArray stores) h).
Local Abbreviation optimistic :=
  (optimisticSet stores mappingLoadFunction thisStore).
Local Abbreviation write_through :=
  (writeThrough stores mappingWriteFunction thisStore).
Local Abbreviation reload_after :=
  (reloadAfterWrite stores mappingLoadFunction reloadable thisStore).
Local Abbreviation set_ :=
  (setStoreValueThenWrite stores mappingLoadFunction mappingWriteFunction
     reloadable thisStore).
Local Abbreviation update_ :=
  (updateStoreValueThenWrite stores mappingLoadFunction mappingWriteFunction
     reloadable thisStore).

Lemma pass_normal (parentLoadFunction : Stores → M Promise)
    (forceReload : option bool) (h : heap) :
  ∃ p hp, pass parentLoadFunction forceReload h = (Normal p, hp).
Proof.
  rewrite pass_eq.
  destruct (parentLoadFunction stores h) as [[[pv|e]|e] h1]; eauto.
  destruct (derive _ h1) as [[r|e] h']; eauto.
Qed.

(** Lines 203-209, by the outcome of the best-effort pass. *)
Lemma optimistic_eq (v : val) (h hp : heap) (p : Promise) :
  pass loadAll None h = (Normal p, hp) →
  optimistic v h =
  match currentLoadPromise (cellOf hp) with
  | Some q =>
      (Normal tt,
       put (with_value v)
           (put (with_promise
                   match p with
                   | Fulfilled _ => then_const q v
                   | Rejected _ => catch_const q v
                   end) hp))
  | None => (Throw TypeError, hp)
  end.
Proof.
  intros Hp.
  unfold optimisticSet, bind at 1, try_catch, bind at 1. rewrite Hp.
  unfold bind, await, chainPromise, bind, readPromise, read, throw, ret,
    thisStore_set, modify.
  destruct p as [x|e];
    destruct (currentLoadPromise (cellOf hp)) eqn:Hq; cbn; rewrite ?Hq; done.
Qed.

(** Lines 211-223, by the outcome of [loadAll] and of the mapping-write
    function. *)
Lemma write_through_None (v : val) (h1 : heap) :
  mappingWriteFunction = None → write_through v h1 = (Normal tt, h1).
Proof. intros Hw. unfold writeThrough. by rewrite Hw. Qed.

Lemma write_through_eq write (v : val) (h1 : heap) :
  mappingWriteFunction = Some write →
  write_through v h1 =
  match loadAll stores h1 with
  | (Throw e, h2) => (Throw e, h2)
  | (Normal (Rejected e), h2) => (Throw e, h2)
  | (Normal (Fulfilled pv), h2) =>
      let h3 := put (with_writeCall v pv) h2 in
      match write (length (writeCalls (cellOf h2))) v pv with
      | Throws e => (Throw e, h3)
      | RejectsWith e => (Throw e, h3)
      | Returns r =>
          if val_is_undefined r then (Normal tt, h3)
          else
            match currentLoadPromise (cellOf h2) with
            | Some q =>
                (Normal tt,
                 put (with_promise (then_const q r)) (put (with_value r) h3))
            | None => (Throw TypeError, put (with_value r) h3)
            end
      end
  end.
Proof.
  intros Hw. unfold writeThrough. rewrite Hw. unfold bind at 1.
  destruct (loadAll stores h1) as [[[pv|e]|e] h2]; try done.
  unfold bind, await, ret, read, modify, awaitCall, throw, thisStore_set,
    chainPromise, bind, readPromise, read, modify.
  cbn zeta. destruct (write _ v pv) as [r|e|e]; unfold ret, throw; try done.
  destruct (val_is_undefined r); [done|].
  rewrite !cellAt_insert. cbn.
  destruct (currentLoadPromise (cellOf h2)); cbn; by rewrite ?cellAt_insert.
Qed.

Lemma set_eq (v : val) (h : heap) :
  set_ v h =
  match optimistic v h with
  | (Throw e, h1) => (Normal (Rejected e), h1)
  | (Normal _, h1) =>
      match write_through v h1 with
      | (Throw e, h3) => (Normal (Rejected e), h3)
      | (Normal _, h3) =>
          if truthy reloadable then
            match pass reloadAll reloadable h3 with
            | (Normal (Fulfilled _), h4) => (Normal (Fulfilled VUndefined), h4)
            | (Normal (Rejected e), h4) => (Normal (Rejected e), h4)
            | (Throw e, h4) => (Normal (Rejected e), h4)
            end
          else (Normal (Fulfilled VUndefined), h3)
      end
  end.
Proof.
  unfold setStoreValueThenWrite, async, bind at 1.
  destruct (optimistic v h) as [[[]|e] h1]; [|done].
  unfold bind at 1.
  destruct (write_through v h1) as [[[]|e] h3]; [|done].
  unfold bind at 1, reloadAfterWrite.
  destruct (truthy reloadable); [|done].
  unfold bind at 1.
  destruct (pass reloadAll reloadable h3) as [[[x|e]|e] h4]; done.
Qed.

Lemma set_normal (v : val) (h : heap) :
  ∃ q h', set_ v h = (Normal q, h').
Proof.
  rewrite set_eq.
  destruct (optimistic v h) as [[[]|e] h1]; eauto.
  destruct (write_through v h1) as [[[]|e] h3]; eauto.
  destruct (truthy reloadable); eauto.
  destruct (pass reloadAll reloadable h3) as [[[x|e]|e] h4]; eauto.
Qed.

Lemma update_eq (updater : Updater) (h : heap) :
  update_ updater h =
  match pass loadAll None h with
  | (Normal (Fulfilled x), hp) =>
      match updater x with
      | Normal newValue => set_ newValue hp
      | Throw e => (Normal (Rejected e), hp)
      end
  | (Normal (Rejected e), hp) => (Normal (Rejected e), hp)
  | (Throw e, hp) => (Normal (Rejected e), hp)
  end.
Proof.
  unfold updateStoreValueThenWrite, async, bind at 1.
  destruct (pass loadAll None h) as [[[x|e]|e] hp]; try done.
  unfold bind at 1, await, ret, bind at 1, lift.
  destruct (updater x) as [newValue|e]; [|done].
  unfold bind, ret.
  destruct (set_normal newValue hp) as (q & h' & Hset).
  fold set_. by rewrite Hset.
Qed.

(** A failure arising in a pass rejects the pass. *)
Lemma pass_failure_rejects (parentLoadFunction : Stores → M Promise)
    (forceReload : option bool) (h : heap) (e : error) :
  passFailure stores mappingLoadFunction thisStore parentLoadFunction
    forceReload h = Some e →
  (pass parentLoadFunction forceReload h).1 = Normal (Rejected e).
Proof.
  unfold passFailure. rewrite pass_eq.
  destruct (parentLoadFunction stores h) as [[[pv|e']|e'] h1];
    [|by intros [= ->]..].
  destruct (storeValues h1) as [vs|e'] eqn:Hs.
  2:{ intros [= ->]. by rewrite (derive_throw _ _ _ _ _ _ Hs). }
  destruct (default false forceReload); cbn [negb andb].
  - rewrite (derive_forced _ _ _ _ _ Hs), invoke_eq.
    by destruct (mappingLoadFunction _ _); intros [= ->].
  - case_bool_decide as Hk; [done|].
    rewrite (derive_miss _ _ _ _ _ Hs Hk), invoke_eq, cellAt_insert. cbn.
    by destruct (mappingLoadFunction _ _); intros [= ->].
Qed.

(** A forced pass that fulfils has resolved the parents with
    [reloadAll] and invoked the mapping-load function on their
    snapshots; what the function returned is the result of the pass
    and the visible value. *)
Lemma forced_pass_fulfilled (x : val) (h3 h' : heap) :
  truthy reloadable = true →
  pass reloadAll reloadable h3 = (Normal (Fulfilled x), h') →
  ∃ h4 pv vs,
    reloadAll stores h3 = (Normal (Fulfilled pv), h4) ∧
    storeValues h4 = Normal vs ∧
    mappingLoadFunction (length (loadCalls (cellOf h4))) (loadArgument stores vs)
    = Returns x ∧
    value (cellOf h') = x.
Proof.
  intros Hr%truthy_Some_true. rewrite pass_eq, Hr. cbn [default].
  destruct (reloadAll stores h3) as [[[pv|e]|e] h4] eqn:Hp; try done.
  destruct (storeValues h4) as [vs|e] eqn:Hs.
  2:{ by rewrite (derive_throw _ _ _ _ _ _ Hs). }
  rewrite (derive_forced _ _ _ _ _ Hs), invoke_eq.
  destruct (mappingLoadFunction _ _) as [y|e|e] eqn:Hm; try done.
  intros [= <- <-]. exists h4, pv, vs.
  repeat split; try done. by rewrite !cellAt_insert.
Qed.

(** C5, as the code has it.  A [set(v)] that resolves on a cell with a
    mapping-write function has invoked that function once, with [v]
    and the array [loadAll] resolved the parents to; a defined result
    overwrites the optimistic value and is the visible value at the
    end of the write step.  It is still the visible value when
    [set(v)] resolves provided the [reloadable] flag is not set: a
    reloadable cell goes on to a forced reload, which resolves the
    parents with [reloadAll] and sets the value anew, to what the
    mapping-load function returns on their snapshots. *)
Theorem write_response_is_authoritative
    (write : nat → val → val → mres) (v u : val) (h h' : heap) :
  mappingWriteFunction = Some write →
  set_of o v h = (Normal (Fulfilled u), h') →
  ∃ h1 h2 h3 pv r,
    optimistic v h = (Normal tt, h1) ∧
    loadAll stores h1 = (Normal (Fulfilled pv), h2) ∧
    write (length (writeCalls (cellOf h2))) v pv = Returns r ∧
    write_through v h1 = (Normal tt, h3) ∧
    writeCalls (cellOf h3) = (v, pv) :: writeCalls (cellOf h2) ∧
    (r ≠ VUndefined → value (cellOf h3) = r) ∧
    (truthy reloadable = false → h' = h3) ∧
    (truthy reloadable = true →
     ∃ h4 pv' vs x,
       reloadAll stores h3 = (Normal (Fulfilled pv'), h4) ∧
       storeValues h4 = Normal vs ∧
       mappingLoadFunction (length (loadCalls (cellOf h4)))
                           (loadArgument stores vs) = Returns x ∧
       value (cellOf h') = x).
Proof.
  intros Hw. rewrite set_of_storeObject, set_eq.
  destruct (optimistic v h) as [[[]|e] h1]; [|done].
  destruct (write_through v h1) as [[[]|e] h3] eqn:Hwt; [|done].
  intros Hset.
  assert (truthy reloadable = true →
          ∃ x, pass reloadAll reloadable h3 = (Normal (Fulfilled x), h'))
    as Hreload.
  { intros Hr. rewrite Hr in Hset.
    destruct (pass reloadAll reloadable h3) as [[[x|e]|e] h4]; try done.
    injection Hset as _ <-. eauto. }
  assert (truthy reloadable = false → h' = h3) as Hend.
  { intros Hf. rewrite Hf in Hset. by injection Hset as _ <-. }
  clear Hset. pose proof Hwt as Hthrough.
  rewrite (write_through_eq _ _ _ Hw) in Hwt.
  destruct (loadAll stores h1) as [[[pv|e]|e] h2] eqn:Hl; try done.
  cbn zeta in Hwt.
  destruct (write _ v pv) as [r|e|e] eqn:Hr; try done.
  exists h1, h2, h3, pv, r.
  assert (writeCalls (cellOf h3) = (v, pv) :: writeCalls (cellOf h2)
          ∧ (r ≠ VUndefined → value (cellOf h3) = r)) as [Hcalls Hvalue].
  { destruct (val_is_undefined r) eqn:Hu.
    - injection Hwt as <-. rewrite cellAt_insert. split; [done|].
      by destruct r.
    - destruct (currentLoadPromise (cellOf h2)) as [q|]; [|done].
      injection Hwt as <-. by rewrite !cellAt_insert. }
  repeat split; try done.
  intros Hflag. destruct (Hreload Hflag) as [x Hpass].
  destruct (forced_pass_fulfilled _ _ _ Hflag Hpass)
    as (h4 & pv' & vs & Hp & Hs & Hm & Hx).
  by exists h4, pv', vs, x.
Qed.

(** C2, as the code has it.  [load()], [reload()] and [update(fn)]
    reject with every failure of their derivation pass, and
    [update(fn)] also when [fn] throws, and otherwise settles as the
    [set] it forwards to.  [set(v)] rejects with a failure of its write
    step and of its final forced reload, but swallows the failure of
    its opening derivation pass: with a load promise on record it goes
    on to the optimistic write, and without a mapping-write function
    and a [reloadable] flag it resolves. *)
Theorem explicit_calls_surface_failures (h : heap) (e : error) :
  (passFailure stores mappingLoadFunction thisStore loadAll None h = Some e →
   (load_of o h).1 = Normal (Rejected e))
  ∧ (withReload = true →
     passFailure stores mappingLoadFunction thisStore reloadAll reloadable h
     = Some e →
     (reload_of o h).1 = Normal (Rejected e))
  ∧ (∀ updater,
       passFailure stores mappingLoadFunction thisStore loadAll None h = Some e →
       (update_of o updater h).1 = Normal (Rejected e))
  ∧ (∀ (updater : Updater) x hp,
       load_of o h = (Normal (Fulfilled x), hp) →
       match updater x with
       | Throw e' => update_of o updater h = (Normal (Rejected e'), hp)
       | Normal newValue => update_of o updater h = set_of o newValue hp
       end)
  ∧ (∀ v h1,
       optimistic v h = (Normal tt, h1) →
       writeFailure stores mappingWriteFunction thisStore v h1 = Some e →
       (set_of o v h).1 = Normal (Rejected e))
  ∧ (∀ v h1 h3,
       optimistic v h = (Normal tt, h1) →
       write_through v h1 = (Normal tt, h3) →
       truthy reloadable = true →
       passFailure stores mappingLoadFunction thisStore reloadAll reloadable h3
       = Some e →
       (set_of o v h).1 = Normal (Rejected e))
  ∧ (∀ v,
       passFailure stores mappingLoadFunction thisStore loadAll None h = Some e →
       is_Some (currentLoadPromise (cellOf (load_of o h).2)) →
       ∃ h1,
         optimistic v h = (Normal tt, h1) ∧ value (cellOf h1) = v ∧
         (mappingWriteFunction = None → truthy reloadable = false →
          set_of o v h = (Normal (Fulfilled VUndefined), h1))).
Proof.
  rewrite load_of_storeObject.
  split; [by apply pass_failure_rejects|].
  split; [intros Hw; rewrite reload_of_storeObject by done;
          by apply pass_failure_rejects|].
  split.
  { intros updater Hf%pass_failure_rejects.
    rewrite update_of_storeObject, update_eq.
    by destruct (pass loadAll None h) as [[[x|e']|e'] hp]; cbn in *;
      simplify_eq. }
  split.
  { intros updater x hp Hp.
    rewrite update_of_storeObject, update_eq, Hp.
    destruct (updater x); [|done]. by rewrite set_of_storeObject. }
  split.
  { intros v h1 Hopt. unfold writeFailure.
    rewrite set_of_storeObject, set_eq, Hopt.
    assert (mappingWriteFunction = None
            ∨ ∃ write, mappingWriteFunction = Some write) as [Hw|[write Hw]]
      by (destruct mappingWriteFunction; eauto).
    { by rewrite Hw. }
    rewrite (write_through_eq _ _ _ Hw), Hw.
    destruct (loadAll stores h1) as [[[pv|e']|e'] h2];
      [|by intros [= ->]..].
    cbn zeta. by destruct (write _ v pv); intros [= ->]. }
  split.
  { intros v h1 h3 Hopt Hwt Hr Hf%pass_failure_rejects.
    rewrite set_of_storeObject, set_eq, Hopt, Hwt, Hr.
    by destruct (pass reloadAll reloadable h3) as [[[x|e']|e'] h4]; cbn in *;
      simplify_eq. }
  intros v Hf%pass_failure_rejects [q Hq].
  destruct (pass loadAll None h) as [[p|e'] hp] eqn:Hp; cbn in *; [|done].
  injection Hf as ->.
  rewrite (optimistic_eq _ _ _ _ Hp), Hq. eexists. split; [done|].
  split; [by rewrite cellAt_insert|].
  intros Hw Hr.
  rewrite set_of_storeObject, set_eq, (optimistic_eq _ _ _ _ Hp), Hq.
  by rewrite (write_through_None _ _ Hw), Hr.
Qed.

(** What C9 says holds whenever the mapping-load function does not
    throw synchronously: after a [set(v)] that resolved, on a cell
    with neither a mapping-write function nor the [reloadable] flag, a
    [load()] under unchanged parent values returns the promise chained
    to [v] and invokes nothing. *)
Lemma load_after_set_without_throw
    (v u : val) (h0 h1 h2 h3 : heap) (pv1 pv2 : val) (vs : list val) :
  mappingWriteFunction = None →
  truthy reloadable = false →
  (∀ n a e, mappingLoadFunction n a ≠ Throws e) →
  set_of o v h0 = (Normal (Fulfilled u), h2) →
  loadAll stores h0 = (Normal (Fulfilled pv1), h1) →
  storeValues h1 = Normal vs →
  loadAll stores h2 = (Normal (Fulfilled pv2), h3) →
  storeValues h3 = Normal vs →
  cellOf h3 = cellOf h2 →
  load_of o h2 = (Normal (Fulfilled v), h3) ∧
  loadCalls (cellOf h3) = loadCalls (cellOf h2) ∧
  loadedValuesString (cellOf h2) = Some (JSON_stringify vs) ∧
  currentLoadPromise (cellOf h2) = Some (Fulfilled v).
Proof.
  intros Hw Hr Hnothrow Hset Hp1 Hs1 Hp2 Hs2 Hframe.
  rewrite set_of_storeObject, set_eq in Hset.
  destruct (pass_normal loadAll None h0) as (p & hp & Hpass).
  rewrite (optimistic_eq _ _ _ _ Hpass) in Hset.
  assert (loadedValuesString (cellOf hp) = Some (JSON_stringify vs)
          ∧ (currentLoadPromise (cellOf hp) = None
             ∨ currentLoadPromise (cellOf hp) = Some p)) as [Hkey Hshape].
  { rewrite pass_eq, Hp1 in Hpass. cbn [default] in Hpass.
    destruct (decide (loadedValuesString (cellOf h1) = Some (JSON_stringify vs)))
      as [Hk|Hk].
    - rewrite (derive_skip _ _ _ _ _ Hs1 Hk) in Hpass.
      injection Hpass as <- <-. split; [done|].
      destruct (currentLoadPromise (cellOf h1)); cbn; eauto.
    - rewrite (derive_miss _ _ _ _ _ Hs1 Hk), invoke_eq in Hpass.
      destruct (mappingLoadFunction _ _) eqn:Hm;
        [| |by apply Hnothrow in Hm];
        injection Hpass as <- <-; rewrite ?cellAt_insert; cbn; eauto. }
  destruct Hshape as [Hnone|Hsome].
  { by rewrite Hnone in Hset. }
  rewrite Hsome, (write_through_None _ _ Hw), Hr in Hset.
  injection Hset as _ <-.
  rewrite load_of_storeObject, pass_eq, Hp2. cbn [default].
  rewrite (derive_skip stores mappingLoadFunction thisStore h3 vs Hs2)
    by (by rewrite Hframe, !cellAt_insert).
  rewrite Hframe, !cellAt_insert. cbn.
  by destruct p.
Qed.

End asyncWritable_write.

(* ------------------------------------------------------------------ *)
(** * Closed instances *)

(** The sample programs build their stores with [asyncWritable]; the
    objects used below are the ones it returns. *)
Lemma doubling_constructed (flag : option bool) :
  run (asyncWritable (Array []) doublingLoad (Some doublingWrite) flag VUndefined)
  = (Normal (doubling flag), <[0%nat := newCell VUndefined]> ∅).
Proof.
  unfold run. rewrite asyncWritable_eq. unfold doubling. cbn [getStoresArray existsb].
  by rewrite orb_false_r.
Qed.

Lemma successor_constructed (parent : JsObject) (h : heap) :
  fresh (dom h) = 1%nat →
  (asyncWritable (Single parent) successorLoad None None VUndefined h).1
  = Normal (successorOf parent).
Proof.
  intros Hl. rewrite asyncWritable_eq. cbn [fst]. unfold successorOf.
  rewrite Hl. cbn. by rewrite orb_false_r.
Qed.

(** C1, counterexample.  The successor of a reloadable source has a
    [reload] of its own although its flag is not set; after [load()]
    and [reload()] the source's mapping-load function has run twice
    and the successor's only once: its [reload()] took the
    memoization skip. *)
Lemma reload_of_unflagged_cell_is_memoized :
  (run loadThenReload).1 = Normal (true, Fulfilled (VNum 2), Fulfilled (VNum 2))
  ∧ loadCalls (cellAt (run loadThenReload).2 0) = [VArr []; VArr []]
  ∧ loadCalls (cellAt (run loadThenReload).2 1) = [VNum 1]
  ∧ loadedValuesString (cellAt (run loadThenReload).2 1) = Some "[1]".
Proof. by vm_compute. Qed.

(** C2, counterexample.  With a parent whose [load()] rejects, the
    cell's [load()] rejects but its [set(5)] resolves, and the
    optimistic value is visible. *)
Lemma set_swallows_ancestor_failure :
  (run setUnderFailingParent).1
  = Normal (Rejected boom, Fulfilled VUndefined, VNum 5).
Proof. by vm_compute. Qed.

(** C5, counterexample.  On the reloadable doubling store the
    mapping-write function is invoked with 3 and answers 6, yet after
    [await w.set(3)] the snapshot is 0, the result of the forced
    reload. *)
Lemma reloadable_set_ends_with_reload :
  (run (setDoubling (Some true))).1 = Normal (Fulfilled VUndefined, VNum 0)
  ∧ writeCalls (cellAt (run (setDoubling (Some true))).2 0) = [(VNum 3, VArr [])]
  ∧ doublingWrite 0 (VNum 3) (VArr []) = Returns (VNum 6).
Proof. by vm_compute. Qed.

(** C9, the failing input.  The cell has loaded 10 from a parent
    holding 1; the parent is set to 2, for which the mapping-load
    function throws synchronously; [await c.set(5)] resolves and
    the snapshot is 5, but the following [c.load()], the parent
    unchanged, resolves to the stale 10: the pass inside [set] stored
    the new key and left the old promise, which [catch] does not
    rewrite. *)
Theorem load_after_set_returns_stale_value :
  (run loadAfterSet).1
  = Normal (Fulfilled (VNum 10), Fulfilled VUndefined, Fulfilled (VNum 10), VNum 5)
  ∧ loadCalls (cellAt (run loadAfterSet).2 1) = [VNum 2; VNum 1]
  ∧ loadedValuesString (cellAt (run loadAfterSet).2 1) = Some "[2]"
  ∧ currentLoadPromise (cellAt (run loadAfterSet).2 1) = Some (Fulfilled (VNum 10)).
Proof. by vm_compute. Qed.

(** C3 at the successor of the failing source: [load()] rejects with
    the parent's reason, the value is still the initial one and the
    mapping-load function has not run. *)
Lemma ancestor_failure_witness :
  (load_of (successorOf failingSource) (twoCells VUndefined)).1
  = Normal (Rejected boom)
  ∧ value (cellAt (load_of (successorOf failingSource) (twoCells VUndefined)).2 1)
    = VUndefined
  ∧ loadCalls (cellAt (load_of (successorOf failingSource) (twoCells VUndefined)).2 1)
    = [].
Proof.
  destruct (ancestor_failure_leaves_value
              (Single failingSource) successorLoad None None 1
              (hasOwn failingSource "reload") loadAll load_of
              (twoCells VUndefined)
              (loadAll (Single failingSource) (twoCells VUndefined)).2 boom
              (or_introl (conj eq_refl eq_refl))
              ltac:(vm_compute; reflexivity))
    as (h' & Hcall & _ & Hlog & _ & _ & Hvalue).
  unfold successorOf. rewrite Hcall. cbn [fst snd].
  rewrite Hlog, Hvalue; [|vm_compute; reflexivity].
  split; [reflexivity|]. split; vm_compute; reflexivity.
Defined.

(** C4 at the successor of a plain store holding 1, after a first
    [load()]: the second [load()] returns the promise on record and
    leaves the heap as it was. *)
Lemma load_twice_witness :
  load_of (successorOf (plainStore 0))
          (load_of (successorOf (plainStore 0)) (twoCells (VNum 1))).2
  = (Normal (Fulfilled (VNum 2)),
     (load_of (successorOf (plainStore 0)) (twoCells (VNum 1))).2)
  ∧ loadCalls (cellAt (load_of (successorOf (plainStore 0)) (twoCells (VNum 1))).2 1)
    = [VNum 1].
Proof.
  pose proof (load_twice_invokes_at_most_once
                (Single (plainStore 0)) successorLoad None None 1
                (hasOwn (plainStore 0) "reload")
                (twoCells (VNum 1)) (twoCells (VNum 1))
                (load_of (successorOf (plainStore 0)) (twoCells (VNum 1))).2
                (load_of (successorOf (plainStore 0)) (twoCells (VNum 1))).2
                (VArr [VNum 1]) (VArr [VNum 1]) [VNum 1]
                (load_of (successorOf (plainStore 0)) (twoCells (VNum 1))).1
                ltac:(vm_compute; reflexivity)
                ltac:(vm_compute; reflexivity)
                ltac:(vm_compute; reflexivity)
                ltac:(vm_compute; reflexivity)
                ltac:(vm_compute; reflexivity)
                eq_refl) as (Hcall & _ & _).
  split; [exact Hcall|vm_compute; reflexivity].
Defined.

(** C1 at the reloadable source, whose [reload()] runs the
    mapping-load function again under an unchanged key, and at its
    successor, whose [reload()] returns the promise on record. *)
Lemma reload_forces_witness :
  loadCalls (cellAt (reload_of source (load_of source oneCell).2).2 0)
  = [VArr []; VArr []]
  ∧ reload_of (successorOf source)
              (load_of (successorOf source) (twoCells VUndefined)).2
    = (Normal (Fulfilled (VNum 2)),
       (reloadAll (Single source)
                  (load_of (successorOf source) (twoCells VUndefined)).2).2).
Proof.
  split.
  - destruct (reload_forces_only_when_flagged
                (Array []) sourceLoad None (Some true) 0 true
                (load_of source oneCell).2 (load_of source oneCell).2
                (VArr []) [] eq_refl
                ltac:(vm_compute; reflexivity)
                ltac:(vm_compute; reflexivity)) as [Hforce _].
    exact (Hforce eq_refl).
  - destruct (reload_forces_only_when_flagged
                (Single source) successorLoad None None 1
                (hasOwn source "reload")
                (load_of (successorOf source) (twoCells VUndefined)).2
                (reloadAll (Single source)
                   (load_of (successorOf source) (twoCells VUndefined)).2).2
                (VArr [VNum 1]) [VNum 1]
                ltac:(vm_compute; reflexivity)
                ltac:(vm_compute; reflexivity)
                ltac:(vm_compute; reflexivity)) as [_ Hskip].
    exact (Hskip ltac:(discriminate) ltac:(vm_compute; reflexivity)).
Defined.

(** C8 at the store that answers the length of its argument, over a
    plain store holding 1: given the store in an array the function
    receives the array [[1]] and answers 1, given the bare store it
    receives the number 1 and answers [undefined]. *)
Lemma mapping_load_argument_witness :
  ((load_of (arityOf (Array [plainStore 0])) (twoCells (VNum 1))).1
   = Normal (Fulfilled (VNum 1))
   ∧ loadCalls (cellAt (load_of (arityOf (Array [plainStore 0]))
                                (twoCells (VNum 1))).2 1)
     = [VArr [VNum 1]])
  ∧ ((load_of (arityOf (Single (plainStore 0))) (twoCells (VNum 1))).1
     = Normal (Fulfilled VUndefined)
     ∧ loadCalls (cellAt (load_of (arityOf (Single (plainStore 0)))
                                  (twoCells (VNum 1))).2 1)
       = [VNum 1]).
Proof.
  unfold arityOf. rewrite !load_of_storeObject. split.
  - destruct (mapping_load_argument
                (Array [plainStore 0]) arityLoad 1 loadAll None
                (twoCells (VNum 1)) (twoCells (VNum 1))
                (VArr [VNum 1]) [VNum 1]
                ltac:(vm_compute; reflexivity)
                ltac:(vm_compute; reflexivity)
                ltac:(right; vm_compute; discriminate))
      as (arg & h' & [-> _] & Hcall & Hlog & _).
    rewrite Hcall. cbn [fst snd]. rewrite Hlog.
    split; vm_compute; reflexivity.
  - destruct (mapping_load_argument
                (Single (plainStore 0)) arityLoad 1 loadAll None
                (twoCells (VNum 1)) (twoCells (VNum 1))
                (VArr [VNum 1]) [VNum 1]
                ltac:(vm_compute; reflexivity)
                ltac:(vm_compute; reflexivity)
                ltac:(right; vm_compute; discriminate))
      as (arg & h' & Harg & Hcall & Hlog & _).
    assert (arg = VNum 1) as -> by (vm_compute in Harg; congruence).
    rewrite Hcall. cbn [fst snd]. rewrite Hlog.
    split; vm_compute; reflexivity.
Defined.

(** C5 at [w = asyncWritable([], async () => 0, async (v) => v * 2)]:
    after [await w.set(3)] the snapshot is 6. *)
Lemma write_response_witness :
  value (cellAt (set_of (doubling None) (VNum 3) oneCell).2 0) = VNum 6.
Proof.
  destruct (write_response_is_authoritative
              (Array []) doublingLoad (Some doublingWrite) None 0 (truthy None)
              doublingWrite (VNum 3) VUndefined oneCell
              (set_of (doubling None) (VNum 3) oneCell).2
              eq_refl ltac:(vm_compute; reflexivity))
    as (h1 & h2 & h3 & pv & r & _ & _ & Hwrite & _ & _ & Hvalue & Hend & _).
  injection Hwrite as <-.
  rewrite (Hend eq_refl). apply Hvalue. discriminate.
Defined.

(** C2 at the successor of the failing source, whose [load()]
    rejects and whose [set(5)] resolves, and at a store whose
    mapping-write function rejects, whose [set(3)] rejects. *)
Lemma explicit_calls_witness :
  (load_of (successorOf failingSource) (twoCells VUndefined)).1
  = Normal (Rejected boom)
  ∧ (set_of (successorOf failingSource) (VNum 5)
            (load_of (successorOf failingSource) (twoCells VUndefined)).2).1
    = Normal (Fulfilled VUndefined)
  ∧ (set_of unwritable (VNum 3) oneCell).1 = Normal (Rejected boom).
Proof.
  split; [|split].
  - destruct (explicit_calls_surface_failures
                (Single failingSource) successorLoad None None 1
                (hasOwn failingSource "reload") (twoCells VUndefined) boom)
      as (Hload & _).
    apply Hload. vm_compute. reflexivity.
  - destruct (explicit_calls_surface_failures
                (Single failingSource) successorLoad None None 1
                (hasOwn failingSource "reload")
                (load_of (successorOf failingSource) (twoCells VUndefined)).2
                boom)
      as (_ & _ & _ & _ & _ & _ & Hswallow).
    destruct (Hswallow (VNum 5) ltac:(vm_compute; reflexivity)
                ltac:(vm_compute; eexists; reflexivity))
      as (h1 & _ & _ & Hset).
    exact (f_equal fst (Hset eq_refl eq_refl)).
  - destruct (explicit_calls_surface_failures
                (Array []) doublingLoad (Some rejectingWrite) None 0 false
                oneCell boom)
      as (_ & _ & _ & _ & Hwrite & _).
    apply (Hwrite (VNum 3)
             (optimisticSet (Array []) doublingLoad 0 (VNum 3) oneCell).2);
      vm_compute; reflexivity.
Defined.

(** C10 at an instance of a class that defines [load] and [reload] as
    methods: both are found through the prototype, and both probes
    answer [false]; on [null] the probe throws. *)
Lemma probes_witness :
  is_Some (getProp classInstance "load")
  ∧ isLoadable (Object classInstance) = Normal false
  ∧ isReloadable (Object classInstance) = Normal false
  ∧ isLoadable Null = Throw TypeError.
Proof.
  destruct (probes_test_own_property (Object classInstance))
    as (_ & _ & Hload & Hreload & _).
  destruct (probes_test_own_property Null) as (_ & _ & _ & _ & Hnull).
  assert (is_Some (getProp classInstance "load")) as Hl
    by (vm_compute; eexists; reflexivity).
  assert (is_Some (getProp classInstance "reload")) as Hr
    by (vm_compute; eexists; reflexivity).
  split; [exact Hl|]. split; [|split].
  - apply (Hload classInstance eq_refl). split; [reflexivity|exact Hl].
  - apply (Hreload classInstance eq_refl). split; [reflexivity|exact Hr].
  - apply Hnull. by right.
Defined.

(** The drivers on two plain stores holding 1 and [undefined]. *)
Lemma drivers_on_plain_stores_witness :
  (loadAll (Array [plainStore 0; plainStore 1]) (twoCells (VNum 1))).1
  = Normal (Fulfilled (VArr [VNum 1; VUndefined]))
  ∧ (reloadAll (Array [plainStore 0; plainStore 1]) (twoCells (VNum 1))).1
    = Normal (Fulfilled (VArr [VNum 1; VUndefined])).
Proof.
  apply (drivers_on_plain_stores (Array [plainStore 0; plainStore 1])).
  - repeat constructor.
  - vm_compute. reflexivity.
Defined.

(** The successor of a plain store holding 1: after [set(5)], [load()]
    resolves to 5 and the mapping-load function is not invoked
    again. *)
Lemma load_after_set_witness :
  load_of (successorOf (plainStore 0))
          (set_of (successorOf (plainStore 0)) (VNum 5) (twoCells (VNum 1))).2
  = (Normal (Fulfilled (VNum 5)),
     (set_of (successorOf (plainStore 0)) (VNum 5) (twoCells (VNum 1))).2).
Proof.
  apply (load_after_set_without_throw
           (Single (plainStore 0)) successorLoad None None 1
           (hasOwn (plainStore 0) "reload")
           (VNum 5) VUndefined
           (twoCells (VNum 1)) (twoCells (VNum 1))
           (set_of (successorOf (plainStore 0)) (VNum 5) (twoCells (VNum 1))).2
           (set_of (successorOf (plainStore 0)) (VNum 5) (twoCells (VNum 1))).2
           (VArr [VNum 1]) (VArr [VNum 1]) [VNum 1]);
    try (vm_compute; reflexivity).
  intros n a e. unfold successorLoad. discriminate.
Defined.

(** Reload propagation: reloading the derived store reloads its
    reloadable parent, whose loader runs a second time, and the
    derived value follows. *)
Lemma derived_reload_reaches_parent :
  (run reloadDerived).1
  = Normal (Fulfilled (VNum 100), Fulfilled (VNum 101), VNum 101)
  ∧ loadCalls (cellAt (run reloadDerived).2 0) = [VArr []; VArr []].
Proof. by vm_compute. Qed.

(* ------------------------------------------------------------------ *)
(** * The rest of the file: probes, drivers and constructors *)

(** On a [Stores] argument [anyLoadable] and [anyReloadable] never
    throw, and answer [true] exactly when some store of the normalized
    sequence has the property as an own property; a bare store is
    probed itself. *)
Theorem any_probes_on_stores (stores : Stores) :
  (∃ b, anyLoadable stores = Normal b ∧
        (b = true ↔ Exists (fun s => is_Some (own s !! "load"))
                           (getStoresArray stores)))
  ∧ (∃ b, anyReloadable stores = Normal b ∧
          (b = true ↔ Exists (fun s => is_Some (own s !! "reload"))
                             (getStoresArray stores)))
  ∧ (∀ s, anyLoadable (Single s) = isLoadable (Object s)
          ∧ anyReloadable (Single s) = isReloadable (Object s)).
Proof.
  unfold anyLoadable, anyReloadable, isLoadable, isReloadable.
  rewrite !some_hasOwn. split; [|split].
  - eexists. split; [reflexivity|]. apply existsb_hasOwn.
  - eexists. split; [reflexivity|]. apply existsb_hasOwn.
  - intros s. cbn. by destruct (hasOwn s "load"), (hasOwn s "reload").
Qed.






(* ------------------------------------------------------------------ *)
(** * What a derivation pass leaves behind *)

Section derivation_results.
Variable stores : Stores.
Variable mappingLoadFunction : nat → val → mres.
Variable mappingWriteFunction : option (nat → val → val → mres).
Variable reloadable : option bool.
Variable thisStore : loc.
Variable withReload : bool.

Local Abbreviation o :=
  (storeObject stores mappingLoadFunction mappingWriteFunction reloadable
               thisStore withReload).
Local Abbreviation cellOf h := (cellAt h thisStore).
Local Abbreviation put f h := (<[thisStore := f (cellAt h thisStore)]> h).
Local Abbreviation storeValues h := (snapshots (getStoresArray stores) h).
Local Abbreviation argOf vs := (loadArgument stores vs).

(** A [load()], or a [reload()] on a cell whose own [reloadable] flag
    is not set, that finds the parents resolved and their serialized
    snapshots different from the key on record (as on a cell that has
    never derived) invokes the mapping-load function on the snapshots;
    when that returns [v] the call resolves to [v], and the cell holds
    [v], the new key, the promise fulfilled with [v] and one more
    invocation on record. *)
Theorem load_derives_on_new_key
    (resolve : Stores → M Promise) (method : JsObject → M Promise)
    (h h1 : heap) (pv v : val) (vs : list val) :
  (resolve = loadAll ∧ method = load_of)
  ∨ (resolve = reloadAll ∧ method = reload_of ∧ withReload = true
     ∧ reloadable ≠ Some true) →
  resolve stores h = (Normal (Fulfilled pv), h1) →
  storeValues h1 = Normal vs →
  loadedValuesString (cellOf h1) ≠ Some (JSON_stringify vs) →
  mappingLoadFunction (length (loadCalls (cellOf h1))) (argOf vs) = Returns v →
  ∃ h',
    method o h = (Normal (Fulfilled v), h') ∧
    cellOf h' = Cell v (Some (JSON_stringify vs)) (Some (Fulfilled v))
                     (argOf vs :: loadCalls (cellOf h1))
                     (writeCalls (cellOf h1)).
Proof.
  intros Hcall Hp Hs Hk Hm.
  assert (∃ force, method o = loadDependenciesThenSet stores mappingLoadFunction
                                thisStore resolve force
                   ∧ default false force = false) as (force & -> & Hforce).
  { destruct Hcall as [[-> ->]|(-> & -> & Hw & Hflag)].
    - exists None. split; [apply load_of_storeObject|done].
    - exists reloadable. split; [by apply reload_of_storeObject|].
      by destruct reloadable as [[]|]. }
  rewrite pass_eq, Hp, Hforce.
  rewrite (derive_miss _ _ _ _ _ Hs Hk), invoke_eq, cellAt_insert.
  cbn [loadCalls with_key]. rewrite Hm. eexists. split; [reflexivity|].
  by rewrite !cellAt_insert.
Qed.

(** A [reload()] on a cell whose [reloadable] flag is [true] invokes
    the mapping-load function on the snapshots the parents have after
    [reloadAll]; when that returns [v] the call resolves to [v] and the
    cell holds [v] and the promise fulfilled with [v].  The
    memoization key is neither compared nor stored: it stays what it
    was. *)
Theorem forced_reload_rederives (h h1 : heap) (pv v : val) (vs : list val) :
  withReload = true →
  reloadable = Some true →
  reloadAll stores h = (Normal (Fulfilled pv), h1) →
  storeValues h1 = Normal vs →
  mappingLoadFunction (length (loadCalls (cellOf h1))) (argOf vs) = Returns v →
  ∃ h',
    reload_of o h = (Normal (Fulfilled v), h') ∧
    cellOf h' = Cell v (loadedValuesString (cellOf h1)) (Some (Fulfilled v))
                     (argOf vs :: loadCalls (cellOf h1))
                     (writeCalls (cellOf h1)).
Proof.
  intros Hw Hflag Hp Hs Hm.
  rewrite (reload_of_storeObject _ _ _ _ _ _ Hw), pass_eq, Hp, Hflag.
  cbn [default].
  rewrite (derive_forced _ _ _ _ _ Hs), invoke_eq, Hm.
  eexists. split; [reflexivity|].
  by rewrite !cellAt_insert.
Qed.


End derivation_results.

(** The successor of a plain store holding 1 loads 2. *)
Lemma load_derives_witness :
  (load_of (successorOf (plainStore 0)) (twoCells (VNum 1))).1
  = Normal (Fulfilled (VNum 2))
  ∧ cellAt (load_of (successorOf (plainStore 0)) (twoCells (VNum 1))).2 1
    = Cell (VNum 2) (Some "[1]") (Some (Fulfilled (VNum 2))) [VNum 1] [].
Proof.
  destruct (load_derives_on_new_key
              (Single (plainStore 0)) successorLoad None None 1
              (hasOwn (plainStore 0) "reload") loadAll load_of
              (twoCells (VNum 1)) (twoCells (VNum 1))
              (VArr [VNum 1]) (VNum 2) [VNum 1]
              (or_introl (conj eq_refl eq_refl))
              ltac:(vm_compute; reflexivity)
              ltac:(vm_compute; reflexivity)
              ltac:(vm_compute; discriminate)
              ltac:(vm_compute; reflexivity))
    as (h' & Hcall & Hcell).
  unfold successorOf. rewrite Hcall. cbn [fst snd]. rewrite Hcell.
  split; [reflexivity|]. vm_compute. reflexivity.
Defined.

(** The reloadable source, loaded once, reloads to 1 under its
    unchanged key. *)
Lemma forced_reload_witness :
  (reload_of source (load_of source oneCell).2).1 = Normal (Fulfilled (VNum 1))
  ∧ cellAt (reload_of source (load_of source oneCell).2).2 0
    = Cell (VNum 1) (Some "[]") (Some (Fulfilled (VNum 1))) [VArr []; VArr []] [].
Proof.
  destruct (forced_reload_rederives
              (Array []) sourceLoad None (Some true) 0 true
              (load_of source oneCell).2 (load_of source oneCell).2
              (VArr []) (VNum 1) [] eq_refl eq_refl
              ltac:(vm_compute; reflexivity)
              ltac:(vm_compute; reflexivity)
              ltac:(vm_compute; reflexivity))
    as (h' & Hcall & Hcell).
  split; [exact (f_equal fst Hcall)|].
  transitivity (cellAt h' 0);
    [exact (f_equal (fun r => cellAt r.2 0) Hcall)|].
  rewrite Hcell. vm_compute. reflexivity.
Defined.


(* ------------------------------------------------------------------ *)
(** * Stores without parents *)

Section parentless.
Variable mappingLoadFunction : nat → val → mres.
Variable mappingWriteFunction : option (nat → val → val → mres).
Variable reloadable : option bool.
Variable thisStore : loc.
Variable withReload : bool.

Local Abbreviation o :=
  (storeObject (Array []) mappingLoadFunction mappingWriteFunction reloadable
               thisStore withReload).
Local Abbreviation cellOf h := (cellAt h thisStore).
Local Abbreviation loaded h := ((load_of o h).2).

Lemma parentless_load_eq (h : heap) :
  load_of o h =
  match deriveAndSet (Array []) mappingLoadFunction thisStore false h with
  | (Normal r, h') => (Normal (settle r), h')
  | (Throw e, h') => (Normal (Rejected e), h')
  end.
Proof. by rewrite load_of_storeObject, pass_eq. Qed.

Lemma parentless_loaded_key (h : heap) :
  loadedValuesString (cellOf (loaded h)) = Some (JSON_stringify []).
Proof.
  rewrite parentless_load_eq.
  destruct (deriveAndSet _ _ _ _ h) as [r h'] eqn:Hd.
  pose proof (derive_false_key (Array []) mappingLoadFunction thisStore
                h h' [] r eq_refl Hd) as Hk.
  by destruct r.
Qed.

Lemma parentless_load_skip (h : heap) :
  loadedValuesString (cellOf h) = Some (JSON_stringify []) →
  load_of o h = (Normal (settle (currentLoadPromise (cellOf h))), h).
Proof.
  intros Hk. rewrite parentless_load_eq.
  by rewrite (derive_skip (Array []) mappingLoadFunction thisStore h []
                eq_refl Hk).
Qed.

(** On a store without parents, such as the one behind
    [asyncReadable], [load()] derives at most once: after a first
    [load()] every further [load()] leaves the heap as it is and
    returns the load promise on record, so however often [load()] is
    called the mapping-load function has run at most once; unless that
    function throws synchronously, the later calls settle as the first
    did. *)
Theorem parentless_load_runs_once (h : heap) (n : nat) :
  Nat.iter (S n) (fun h => loaded h) h = loaded h
  ∧ load_of o (loaded h)
    = (Normal (settle (currentLoadPromise (cellOf (loaded h)))), loaded h)
  ∧ (length (loadCalls (cellOf (Nat.iter n (fun h => loaded h) h)))
     ≤ S (length (loadCalls (cellOf h))))%nat
  ∧ ((∀ k a e, mappingLoadFunction k a ≠ Throws e) →
     (load_of o (loaded h)).1 = (load_of o h).1).
Proof.
  assert (∀ h, loaded (loaded h) = loaded h) as Hidem.
  { intros h0. by rewrite (parentless_load_skip _ (parentless_loaded_key h0)). }
  assert (∀ n, Nat.iter (S n) (fun h => loaded h) h = loaded h) as Hiter.
  { intros m. induction m as [|m IH]; [done|].
    rewrite Nat.iter_succ, IH. apply Hidem. }
  assert (length (loadCalls (cellOf (loaded h)))
          ≤ S (length (loadCalls (cellOf h))))%nat as Hlog.
  { rewrite parentless_load_eq.
    pose proof (derive_log (Array []) mappingLoadFunction thisStore false
                  h [] eq_refl) as Hd.
    destruct (deriveAndSet _ _ _ _ h) as [[r|e] h']; cbn [snd] in *;
      destruct Hd as [-> | ->]; cbn; lia. }
  split; [apply Hiter|].
  split; [apply parentless_load_skip, parentless_loaded_key|].
  split.
  { destruct n as [|n]; [cbn; lia|]. by rewrite Hiter. }
  intros Hnothrow.
  rewrite (parentless_load_skip _ (parentless_loaded_key h)). cbn [fst].
  rewrite parentless_load_eq.
  destruct (decide (loadedValuesString (cellOf h) = Some (JSON_stringify [])))
    as [Hk|Hk].
  - by rewrite (derive_skip (Array []) mappingLoadFunction thisStore h []
                  eq_refl Hk).
  - rewrite (derive_miss (Array []) mappingLoadFunction thisStore h []
               eq_refl Hk), invoke_eq.
    destruct (mappingLoadFunction _ _) eqn:Hm;
      [| |by apply Hnothrow in Hm]; cbn [fst snd]; by rewrite !cellAt_insert.
Qed.

End parentless.

(* ------------------------------------------------------------------ *)
(** * What the write path leaves behind *)

Section write_results.
Variable stores : Stores.
Variable mappingLoadFunction : nat → val → mres.
Variable mappingWriteFunction : option (nat → val → val → mres).
Variable reloadable : option bool.
Variable thisStore : loc.
Variable withReload : bool.

Local Abbreviation o :=
  (storeObject stores mappingLoadFunction mappingWriteFunction reloadable
               thisStore withReload).
Local Abbreviation pass := (loadDependenciesThenSet stores mappingLoadFunction thisStore).
Local Abbreviation cellOf h := (cellAt h thisStore).
Local Abbreviation put f h := (<[thisStore := f (cellAt h thisStore)]> h).
Local Abbreviation storeValues h := (snapshots (getStoresArray stores) h).
Local Abbreviation argOf vs := (loadArgument stores vs).
Local Abbreviation optimistic :=
  (optimisticSet stores mappingLoadFunction thisStore).
Local Abbreviation write_through :=
  (writeThrough stores mappingWriteFunction thisStore).

(** After the optimistic step of [set(v)] the visible value is [v]. *)
Lemma optimistic_value (v : val) (h h1 : heap) :
  optimistic v h = (Normal tt, h1) → value (cellOf h1) = v.
Proof.
  destruct (pass_normal stores mappingLoadFunction thisStore loadAll None h)
    as (p & hp & Hpass).
  rewrite (optimistic_eq _ _ _ _ _ _ _ Hpass).
  destruct (currentLoadPromise (cellOf hp)); [|done].
  intros [= <-]. by rewrite cellAt_insert.
Qed.

(** [update(fn)] on a cell with neither a mapping-write function nor
    the [reloadable] flag: when the pass it awaits resolves to [x],
    with a load promise on record, and [fn x] is [newValue], and the
    parents are unchanged when [set] runs its own pass, the call
    resolves, the visible value is [newValue], the load promise is
    fulfilled with [newValue], and key and invocation log are those of
    the awaited pass: the mapping-load function is not invoked
    again. *)
Theorem update_applies_updater
    (updater : Updater) (x newValue : val) (q : Promise)
    (h hp hp2 : heap) (pv : val) (vs : list val) :
  mappingWriteFunction = None →
  truthy reloadable = false →
  load_of o h = (Normal (Fulfilled x), hp) →
  currentLoadPromise (cellOf hp) = Some q →
  updater x = Normal newValue →
  loadAll stores hp = (Normal (Fulfilled pv), hp2) →
  storeValues hp2 = Normal vs →
  loadedValuesString (cellOf hp) = Some (JSON_stringify vs) →
  cellOf hp2 = cellOf hp →
  ∃ h',
    update_of o updater h = (Normal (Fulfilled VUndefined), h') ∧
    cellOf h' = Cell newValue (loadedValuesString (cellOf hp))
                     (Some (Fulfilled newValue))
                     (loadCalls (cellOf hp)) (writeCalls (cellOf hp)).
Proof.
  intros Hw Hr Hload Hq Hupd Hp2 Hs2 Hk Hframe.
  rewrite load_of_storeObject in Hload.
  rewrite update_of_storeObject, update_eq, Hload, Hupd, set_eq.
  assert (pass loadAll None hp = (Normal q, hp2)) as Hpass.
  { rewrite pass_eq, Hp2. cbn [default].
    rewrite (derive_skip stores mappingLoadFunction thisStore hp2 vs Hs2)
      by (by rewrite Hframe).
    by rewrite Hframe, Hq. }
  rewrite (optimistic_eq _ _ _ _ _ _ _ Hpass), Hframe, Hq.
  rewrite (write_through_None _ _ _ _ _ Hw), Hr.
  eexists. split; [reflexivity|].
  rewrite !cellAt_insert. by destruct q.
Qed.

(** A [set(v)] that resolves on a cell whose [reloadable] flag is set
    has ended with a forced reload: the parents were resolved with
    [reloadAll] after the write step, the mapping-load function was
    invoked on their snapshots, and what it returned is the visible
    value and the value of the load promise, whatever [v] and the
    answer of the mapping-write function were. *)
Theorem set_ends_with_forced_reload (v u : val) (h h' : heap) :
  truthy reloadable = true →
  set_of o v h = (Normal (Fulfilled u), h') →
  ∃ h1 h3 h4 pv vs x,
    optimistic v h = (Normal tt, h1) ∧
    write_through v h1 = (Normal tt, h3) ∧
    reloadAll stores h3 = (Normal (Fulfilled pv), h4) ∧
    storeValues h4 = Normal vs ∧
    mappingLoadFunction (length (loadCalls (cellOf h4))) (argOf vs) = Returns x ∧
    cellOf h' = Cell x (loadedValuesString (cellOf h4)) (Some (Fulfilled x))
                     (argOf vs :: loadCalls (cellOf h4))
                     (writeCalls (cellOf h4)).
Proof.
  intros Hr. rewrite set_of_storeObject, set_eq, Hr.
  destruct (optimistic v h) as [[[]|e] h1] eqn:Hopt; [|done].
  destruct (write_through v h1) as [[[]|e] h3] eqn:Hwt; [|done].
  apply truthy_Some_true in Hr. rewrite pass_eq, Hr. cbn [default].
  destruct (reloadAll stores h3) as [[[pv|e]|e] h4] eqn:Hp; try done.
  destruct (storeValues h4) as [vs|e] eqn:Hs.
  2:{ by rewrite (derive_throw _ _ _ _ _ _ Hs). }
  rewrite (derive_forced _ _ _ _ _ Hs), invoke_eq.
  destruct (mappingLoadFunction _ _) as [x|e|e] eqn:Hm; try done.
  intros [= _ <-]. exists h1, h3, h4, pv, vs, x.
  repeat split; try done. by rewrite !cellAt_insert.
Qed.

(** The optimistic write is never rolled back.  When the parents
    resolve in the write step and leave the cell alone, and the
    mapping-write function rejects or throws, [set(v)] rejects with
    that failure and the visible value is still [v]; when the function
    resolves to [undefined] and the [reloadable] flag is not set,
    [set(v)] resolves and the visible value is [v]. *)
Theorem optimistic_value_is_kept
    (write : nat → val → val → mres) (v pv : val) (h h1 h2 : heap) :
  mappingWriteFunction = Some write →
  optimistic v h = (Normal tt, h1) →
  loadAll stores h1 = (Normal (Fulfilled pv), h2) →
  cellOf h2 = cellOf h1 →
  (∀ e, failure (write (length (writeCalls (cellOf h2))) v pv) = Some e →
     ∃ h3, set_of o v h = (Normal (Rejected e), h3) ∧
           value (cellOf h3) = v ∧
           writeCalls (cellOf h3) = (v, pv) :: writeCalls (cellOf h2))
  ∧ (write (length (writeCalls (cellOf h2))) v pv = Returns VUndefined →
     truthy reloadable = false →
     ∃ h3, set_of o v h = (Normal (Fulfilled VUndefined), h3) ∧
           value (cellOf h3) = v ∧
           writeCalls (cellOf h3) = (v, pv) :: writeCalls (cellOf h2)).
Proof.
  intros Hw Hopt Hp Hframe.
  pose proof (optimistic_value _ _ _ Hopt) as Hv.
  rewrite set_of_storeObject, set_eq, Hopt.
  rewrite (write_through_eq _ _ _ _ _ _ Hw), Hp. cbn zeta.
  split.
  - intros e Hf.
    destruct (write _ v pv) as [r|e'|e']; [done|injection Hf as ->..];
      (eexists; split; [reflexivity|]);
      rewrite cellAt_insert; cbn; by rewrite Hframe.
  - intros -> Hr. cbn [val_is_undefined]. rewrite Hr.
    eexists. split; [reflexivity|].
    rewrite cellAt_insert. cbn. by rewrite Hframe.
Qed.

End write_results.

(** [u = asyncWritable(p, (v) => v + 1)] over a plain store holding 1:
    after [await u.update((v) => v * 10)] the value is 20. *)
Lemma update_witness :
  (update_of (successorOf (plainStore 0)) (fun v => Normal (times 10 v))
             (twoCells (VNum 1))).1
  = Normal (Fulfilled VUndefined)
  ∧ value (cellAt (update_of (successorOf (plainStore 0))
                             (fun v => Normal (times 10 v))
                             (twoCells (VNum 1))).2 1)
    = VNum 20.
Proof.
  destruct (update_applies_updater
              (Single (plainStore 0)) successorLoad None None 1
              (hasOwn (plainStore 0) "reload")
              (fun v => Normal (times 10 v)) (VNum 2) (VNum 20)
              (Fulfilled (VNum 2))
              (twoCells (VNum 1))
              (load_of (successorOf (plainStore 0)) (twoCells (VNum 1))).2
              (load_of (successorOf (plainStore 0)) (twoCells (VNum 1))).2
              (VArr [VNum 1]) [VNum 1]
              eq_refl eq_refl
              ltac:(vm_compute; reflexivity)
              ltac:(vm_compute; reflexivity)
              ltac:(vm_compute; reflexivity)
              ltac:(vm_compute; reflexivity)
              ltac:(vm_compute; reflexivity)
              ltac:(vm_compute; reflexivity)
              eq_refl)
    as (h' & Hcall & Hcell).
  split; [exact (f_equal fst Hcall)|].
  transitivity (value (cellAt h' 1));
    [exact (f_equal (fun r => value (cellAt r.2 1)) Hcall)|].
  by rewrite Hcell.
Defined.

(** The reloadable doubling store after [await w.set(3)]: the value is
    the 0 its mapping-load function returns. *)
Lemma set_ends_with_forced_reload_witness :
  value (cellAt (set_of (doubling (Some true)) (VNum 3) oneCell).2 0) = VNum 0.
Proof.
  destruct (set_ends_with_forced_reload
              (Array []) doublingLoad (Some doublingWrite) (Some true) 0
              (truthy (Some true)) (VNum 3) VUndefined oneCell
              (set_of (doubling (Some true)) (VNum 3) oneCell).2
              eq_refl ltac:(vm_compute; reflexivity))
    as (h1 & h3 & h4 & pv & vs & x & _ & _ & _ & _ & Hx & Hcell).
  rewrite Hcell. cbn [value]. by injection Hx as <-.
Defined.

(** The store whose mapping-write function rejects: [set(3)] rejects
    and the value is 3. *)
Lemma optimistic_value_witness :
  ∃ h3, set_of unwritable (VNum 3) oneCell = (Normal (Rejected boom), h3)
        ∧ value (cellAt h3 0) = VNum 3.
Proof.
  destruct (optimistic_value_is_kept
              (Array []) doublingLoad (Some rejectingWrite) None 0 false
              rejectingWrite (VNum 3) (VArr []) oneCell
              (optimisticSet (Array []) doublingLoad 0 (VNum 3) oneCell).2
              (optimisticSet (Array []) doublingLoad 0 (VNum 3) oneCell).2
              eq_refl
              ltac:(vm_compute; reflexivity)
              ltac:(vm_compute; reflexivity)
              eq_refl)
    as [Hfail _].
  destruct (Hfail boom eq_refl) as (h3 & Hset & Hvalue & _).
  exists h3. split; [exact Hset|exact Hvalue].
Defined.

(* ------------------------------------------------------------------ *)
(** * asyncDerived, asyncReadable and derived *)

Lemma getProp_storeObject stores mappingLoadFunction mappingWriteFunction
    reloadable (l : loc) (b : bool) :
  let o := storeObject stores mappingLoadFunction mappingWriteFunction
             reloadable l b in
  getProp o "subscribe" = Some (Subscribe l)
  ∧ getProp o "load"
    = Some (Method (loadDependenciesThenSet stores mappingLoadFunction l
                      loadAll None))
  ∧ getProp o "reload"
    = (if b
       then Some (Method (loadDependenciesThenSet stores mappingLoadFunction l
                            reloadAll reloadable))
       else None).
Proof.
  cbn zeta. unfold storeObject.
  destruct b; cbn [getProp own proto]; repeat split;
    repeat (rewrite lookup_insert_ne by done);
    by rewrite ?lookup_insert_eq, ?lookup_empty.
Qed.

Lemma asyncDerived_eq stores mappingLoadFunction reloadable initial (h : heap) :
  let l := fresh (dom h) in
  let pass := loadDependenciesThenSet stores mappingLoadFunction l in
  let base : gmap string prop :=
    <["load" := Method (pass loadAll None)]>
    (<["subscribe" := Subscribe l]> ∅) in
  asyncDerived stores mappingLoadFunction reloadable initial h
  = (Normal (Obj (if truthy reloadable
                     || existsb (fun s => hasOwn s "reload")
                                (getStoresArray stores)
                  then <["reload" := Method (pass reloadAll reloadable)]> base
                  else base) None),
     <[l := newCell initial]> h).
Proof.
  cbn zeta. unfold asyncDerived, bind. rewrite asyncWritable_eq.
  unfold ret, propertyOf.
  destruct (getProp_storeObject stores mappingLoadFunction None reloadable
              (fresh (dom h))
              (truthy reloadable
               || existsb (fun s => hasOwn s "reload") (getStoresArray stores)))
    as (-> & -> & ->).
  by destruct (truthy reloadable || existsb _ _).
Qed.

(** [asyncDerived] allocates one fresh cell holding [initial] and
    returns a read-only view of the asyncWritable store over it: the
    object has [subscribe] and [load], has [reload] exactly when the
    flag is [true] or a parent has [reload], has neither [set] nor
    [update], and its [load] and [reload] are the derivation passes of
    the writable store. *)
Theorem asyncDerived_is_read_only stores mappingLoadFunction reloadable
    initial (h : heap) :
  ∃ o l,
    asyncDerived stores mappingLoadFunction reloadable initial h
    = (Normal o, <[l := newCell initial]> h) ∧
    h !! l = None ∧
    own o !! "subscribe" = Some (Subscribe l) ∧
    getProp o "set" = None ∧
    getProp o "update" = None ∧
    load_of o = loadDependenciesThenSet stores mappingLoadFunction l loadAll None ∧
    (is_Some (own o !! "reload")
     ↔ reloadable = Some true
       ∨ Exists (fun s => is_Some (own s !! "reload")) (getStoresArray stores)) ∧
    (is_Some (own o !! "reload") →
     reload_of o
     = loadDependenciesThenSet stores mappingLoadFunction l reloadAll reloadable).
Proof.
  rewrite asyncDerived_eq. eexists _, (fresh (dom h)).
  split; [reflexivity|].
  split; [apply not_elem_of_dom, is_fresh|].
  rewrite <- truthy_Some_true, <- existsb_hasOwn, <- orb_true_iff.
  unfold load_of, reload_of, call.
  destruct (truthy reloadable || existsb _ _);
    cbn [getProp own proto]; repeat split;
    repeat (rewrite lookup_insert_ne by done);
    rewrite ?lookup_insert_eq, ?lookup_empty; try done.
  all: by intros [? ?].
Qed.

(** [asyncReadable(initial, loadFunction, reloadable)]: the store
    starts with the snapshot [initial] and has [reload] exactly when
    [reloadable] is [true].  Its first [load()] runs [loadFunction]
    once: a returned value becomes the result, the snapshot and the
    load promise; a rejection rejects the call and leaves the snapshot
    at [initial].  No other cell is touched. *)
Theorem asyncReadable_first_load (initial : val) (loadFunction : nat → mres)
    (reloadable : bool) (h : heap) :
  ∃ o l,
    asyncReadable initial loadFunction reloadable h
    = (Normal o, <[l := newCell initial]> h) ∧
    h !! l = None ∧
    snapshot o (<[l := newCell initial]> h) = Normal initial ∧
    (is_Some (own o !! "reload") ↔ reloadable = true) ∧
    (∀ v, loadFunction 0 = Returns v →
       ∃ h', load_of o (<[l := newCell initial]> h) = (Normal (Fulfilled v), h')
             ∧ cellAt h' l = Cell v (Some "[]") (Some (Fulfilled v)) [VArr []] []
             ∧ snapshot o h' = Normal v
             ∧ ∀ l', l' ≠ l → h' !! l' = h !! l') ∧
    (∀ e, loadFunction 0 = RejectsWith e →
       ∃ h', load_of o (<[l := newCell initial]> h) = (Normal (Rejected e), h')
             ∧ cellAt h' l = Cell initial (Some "[]") (Some (Rejected e)) [VArr []] []
             ∧ snapshot o h' = Normal initial
             ∧ ∀ l', l' ≠ l → h' !! l' = h !! l').
Proof.
  unfold asyncReadable. rewrite asyncDerived_eq. cbn zeta.
  eexists _, (fresh (dom h)).
  split; [reflexivity|].
  split; [apply not_elem_of_dom, is_fresh|].
  set (l := fresh (dom h)).
  assert (∀ (m : gmap string prop) h0,
            m !! "subscribe" = Some (Subscribe l) →
            snapshot (Obj m None) h0 = Normal (value (cellAt h0 l))) as Hsnap.
  { intros m h0 Hm. unfold snapshot. cbn [getProp own proto]. by rewrite Hm. }
  assert (∀ (m : gmap string prop),
            m !! "load"
            = Some (Method (loadDependenciesThenSet (Array [])
                              (fun n _ => loadFunction n) l loadAll None)) →
            load_of (Obj m None)
            = loadDependenciesThenSet (Array []) (fun n _ => loadFunction n) l
                loadAll None) as Hload.
  { intros m Hm. unfold load_of, call. cbn [getProp own proto]. by rewrite Hm. }
  cbn [getStoresArray existsb truthy default]. rewrite orb_false_r.
  assert (∀ h0, loadDependenciesThenSet (Array []) (fun n _ => loadFunction n) l
                  loadAll None (<[l := newCell initial]> h0)
                = match loadFunction 0 with
                  | Returns v =>
                      (Normal (Fulfilled v),
                       <[l := Cell v (Some "[]") (Some (Fulfilled v)) [VArr []] []]>
                         h0)
                  | RejectsWith e =>
                      (Normal (Rejected e),
                       <[l := Cell initial (Some "[]") (Some (Rejected e))
                                [VArr []] []]> h0)
                  | Throws e =>
                      (Normal (Rejected e),
                       <[l := Cell initial (Some "[]") None [VArr []] []]> h0)
                  end) as Hpass.
  { intros h0. rewrite pass_eq.
    change (loadAll (Array []) (<[l:=newCell initial]> h0))
      with (Normal (Fulfilled (VArr [])), <[l:=newCell initial]> h0).
    cbn [default].
    rewrite (derive_miss (Array []) _ l _ [] eq_refl)
      by (by rewrite cellAt_insert).
    rewrite invoke_eq, !cellAt_insert. cbn [loadCalls with_key newCell length].
    change (loadArgument (Array []) []) with (VArr []).
    destruct (loadFunction 0); rewrite ?cellAt_insert, ?insert_insert_eq; done. }
  destruct reloadable; unfold id; cbn [orb].
  all: split; [by rewrite Hsnap, ?cellAt_insert;
                 repeat (rewrite lookup_insert_ne by done);
                 rewrite ?lookup_insert_eq|].
  all: split; [cbn [own]; repeat (rewrite lookup_insert_ne by done);
               rewrite ?lookup_insert_eq, ?lookup_empty;
               split; try done; by intros [? ?]|].
  all: split; [intros v Hfirst|intros e Hfirst];
    (eexists; split;
       [rewrite Hload
          by (repeat (rewrite lookup_insert_ne by done);
              by rewrite lookup_insert_eq);
        rewrite Hpass, Hfirst; reflexivity|]);
    (split; [by rewrite cellAt_insert|]);
    (split; [rewrite Hsnap
               by (repeat (rewrite lookup_insert_ne by done);
                   by rewrite lookup_insert_eq);
             by rewrite cellAt_insert|]);
    intros l' Hl; by rewrite lookup_insert_ne.
Qed.

Lemma derived_eq (stores : Stores) (mappingFunction : val → completion val)
    (h : heap) :
  let thisStore := vanillaDerived stores mappingFunction in
  let base : gmap string prop :=
    <["subscribe" := propertyOf thisStore "subscribe"]> ∅ in
  let loadable : gmap string prop :=
    if existsb (fun s => hasOwn s "load") (getStoresArray stores)
    then <["load" := Method (loadDependencies thisStore loadAll stores)]> base
    else base in
  derived stores mappingFunction h
  = (Normal (Obj (if existsb (fun s => hasOwn s "reload") (getStoresArray stores)
                  then <["reload" := Method (loadDependencies thisStore reloadAll
                                               stores)]> loadable
                  else loadable) None), h).
Proof.
  cbn zeta.
  unfold derived, bind, lift, anyLoadable, anyReloadable, isLoadable,
    isReloadable, ret.
  by rewrite !some_hasOwn.
Qed.

Lemma snapshot_vanillaDerived (stores : Stores)
    (mappingFunction : val → completion val) (h : heap) :
  snapshot (vanillaDerived stores mappingFunction) h
  = match snapshots (getStoresArray stores) h with
    | Normal vs => mappingFunction (loadArgument stores vs)
    | Throw e => Throw e
    end.
Proof. reflexivity. Qed.

(** The [load()] of a derived store resolves its parents with
    [loadAll], and its [reload()] with [reloadAll]: when the parents
    reject, the call rejects with their reason; when they fulfil, it
    settles as the mapping function applied to the snapshots they have
    then, resolving to the value it returns and rejecting with what it
    throws. *)
Theorem derived_load_follows_parents
    (stores : Stores) (mappingFunction : val → completion val)
    (o : JsObject) (h0 h0' : heap)
    (resolve : Stores → M Promise) (method : JsObject → M Promise)
    (h h1 : heap) (p : Promise) :
  derived stores mappingFunction h0 = (Normal o, h0') →
  (resolve = loadAll ∧ method = load_of ∧ is_Some (own o !! "load"))
  ∨ (resolve = reloadAll ∧ method = reload_of ∧ is_Some (own o !! "reload")) →
  resolve stores h = (Normal p, h1) →
  match p with
  | Rejected e => (method o h).1 = Normal (Rejected e)
  | Fulfilled _ =>
      ∀ vs,
        snapshots (getStoresArray stores) h1 = Normal vs →
        (method o h).1
        = Normal match mappingFunction (loadArgument stores vs) with
                 | Normal v => Fulfilled v
                 | Throw e => Rejected e
                 end
  end.
Proof.
  rewrite derived_eq. cbn zeta. intros [= <- <-] Hcall Hres.
  set (thisStore := vanillaDerived stores mappingFunction).
  assert (method _ h = loadDependencies thisStore resolve stores h) as ->.
  { destruct Hcall as [(-> & -> & Hown)|(-> & -> & Hown)];
      unfold load_of, reload_of, call; revert Hown;
      destruct (existsb _ _), (existsb _ _); cbn [getProp own proto];
      repeat (rewrite lookup_insert_ne by done);
      rewrite ?lookup_insert_eq, ?lookup_empty; try done;
      by intros [? ?]. }
  subst thisStore. unfold loadDependencies, async, bind, await. rewrite Hres.
  destruct p as [pv|e]; [|done].
  intros vs Hs. unfold ret, get.
  rewrite snapshot_vanillaDerived, Hs.
  by destruct (mappingFunction _).
Qed.

Lemma derivedSuccessor_constructed :
  derived (Single source) (fun v => Normal (plus 1 v)) ∅
  = (Normal derivedSuccessor, ∅).
Proof. unfold derivedSuccessor. by rewrite derived_eq. Qed.

Lemma derivedSuccessor_reload : is_Some (own derivedSuccessor !! "reload").
Proof.
  unfold derivedSuccessor. rewrite derived_eq. cbn [getStoresArray existsb].
  assert (hasOwn source "reload" = true) as -> by (by vm_compute).
  cbn [orb own]. rewrite lookup_insert_eq. by eexists.
Qed.

(** The derived successor of the reloadable source, reloaded after a
    load: the call resolves to 2, one more than the source holds after
    its reload. *)
Lemma derived_load_witness :
  (reload_of derivedSuccessor (load_of derivedSuccessor oneCell).2).1
  = Normal (Fulfilled (VNum 2)).
Proof.
  pose proof (derived_load_follows_parents
                (Single source) (fun v => Normal (plus 1 v))
                derivedSuccessor ∅ ∅ reloadAll reload_of
                (load_of derivedSuccessor oneCell).2
                (reloadAll (Single source) (load_of derivedSuccessor oneCell).2).2
                (Fulfilled (VArr [VNum 1]))
                derivedSuccessor_constructed
                (or_intror (conj eq_refl (conj eq_refl derivedSuccessor_reload)))
                ltac:(vm_compute; reflexivity)) as Hfollows.
  cbv beta iota in Hfollows.
  exact (Hfollows [VNum 1] ltac:(vm_compute; reflexivity)).
Defined.

(* ------------------------------------------------------------------ *)
(** * Reloading without reloadable stores, and what the key tells apart *)

Lemma reloadOne_loadOne (s : JsObject) :
  own s !! "reload" = None → reloadOne s = loadOne s.
Proof.
  intros Hr. apply hasOwn_false in Hr. unfold reloadOne, loadOne.
  by rewrite Hr.
Qed.

(** When no store of the sequence has [reload], reloading is loading:
    [reloadAll] and [loadAll] give the same result and the same heap. *)
Theorem reloadAll_without_reload_is_loadAll (stores : Stores) (h : heap) :
  Forall (fun s => own s !! "reload" = None) (getStoresArray stores) →
  reloadAll stores h = loadAll stores h.
Proof.
  intros Hnone. unfold reloadAll, loadAll, bind.
  assert (mapM reloadOne (getStoresArray stores) h
          = mapM loadOne (getStoresArray stores) h) as ->; [|done].
  revert h. induction Hnone as [|s ss Hr _ IH]; intros h; [done|].
  cbn [mapM]. unfold bind. rewrite (reloadOne_loadOne _ Hr).
  destruct (loadOne s h) as [[p|e] h1]; [|done]. by rewrite IH.
Qed.

(** The successor of the failing source has no [reload]: reloading a
    sequence made of it and a plain store is loading it. *)
Lemma reloadAll_without_reload_witness :
  reloadAll (Array [successorOf failingSource; plainStore 0]) (twoCells VUndefined)
  = loadAll (Array [successorOf failingSource; plainStore 0]) (twoCells VUndefined).
Proof.
  apply reloadAll_without_reload_is_loadAll.
  repeat constructor; apply hasOwn_false; by vm_compute.
Defined.

Lemma JSON_element_nullify (v : val) :
  JSON_element (nullify v) = JSON_element v.
Proof.
  revert v. fix IH 1. intros [| |b|n|elems]; try reflexivity.
  assert (map JSON_element (map nullify elems) = map JSON_element elems)
    as Hmap.
  { induction elems as [|w ws IHws]; [reflexivity|].
    cbn [map]. by rewrite IH, IHws. }
  change (JSON_element (nullify (VArr elems)))
    with ("[" ++ join_comma (map JSON_element (map nullify elems)) ++ "]").
  by rewrite Hmap.
Qed.

Lemma JSON_stringify_nullify (vs : list val) :
  JSON_stringify (map nullify vs) = JSON_stringify vs.
Proof. exact (JSON_element_nullify (VArr vs)). Qed.

Section memoization_key.
Variable stores : Stores.
Variable mappingLoadFunction : nat → val → mres.
Variable mappingWriteFunction : option (nat → val → val → mres).
Variable reloadable : option bool.
Variable thisStore : loc.
Variable withReload : bool.

Local Abbreviation o :=
  (storeObject stores mappingLoadFunction mappingWriteFunction reloadable
               thisStore withReload).
Local Abbreviation cellOf h := (cellAt h thisStore).

(** The memoization key does not tell [undefined] from [null]: a
    [load()] that finds the parents' snapshots equal, up to reading
    [undefined] as [null], to the values [ws] the key on record was
    made from returns the load promise on record and changes nothing,
    the mapping-load function not being invoked for the new values. *)
Theorem memoization_reads_undefined_as_null
    (h h1 : heap) (pv : val) (vs ws : list val) :
  loadAll stores h = (Normal (Fulfilled pv), h1) →
  snapshots (getStoresArray stores) h1 = Normal vs →
  loadedValuesString (cellOf h1) = Some (JSON_stringify ws) →
  map nullify vs = map nullify ws →
  load_of o h = (Normal (settle (currentLoadPromise (cellOf h1))), h1).
Proof.
  intros Hp Hs Hk Hsame.
  rewrite load_of_storeObject, pass_eq, Hp. cbn [default].
  rewrite (derive_skip _ _ _ _ _ Hs); [done|].
  by rewrite Hk, <- (JSON_stringify_nullify vs), Hsame,
    JSON_stringify_nullify.
Qed.

End memoization_key.

(** The successor loaded 1 plus [undefined] from its parent; the
    parent now holds [null], and [load()] still returns the promise on
    record without invoking the mapping-load function. *)
Lemma memoization_witness :
  load_of (successorOf (plainStore 0)) undefinedThenNull
  = (Normal (Fulfilled VUndefined), undefinedThenNull)
  ∧ snapshot (plainStore 0) undefinedThenNull = Normal VNull
  ∧ loadCalls (cellAt undefinedThenNull 1) = [VUndefined].
Proof.
  split; [|split; vm_compute; reflexivity].
  exact (memoization_reads_undefined_as_null
           (Single (plainStore 0)) successorLoad None None 1
           (hasOwn (plainStore 0) "reload")
           undefinedThenNull undefinedThenNull
           (VArr [VNull]) [VNull] [VUndefined]
           ltac:(vm_compute; reflexivity)
           ltac:(vm_compute; reflexivity)
           ltac:(vm_compute; reflexivity)
           eq_refl).
Defined.
